(** * Candidate selection for dense-mapping loop-closure constraints

  Shallow embedding of
  [console-plugins/dense-mapping-constraints-plugin/src/dense-mapping-selection.cc].

  Conventions of the embedding:
  - [double] is IEEE binary64, i.e. Rocq's primitive [float]; comparisons
    are [PrimFloat.leb] / [PrimFloat.ltb], so NaN behaves as in C++.
  - A failed [CHECK] aborts the process; every function that can reach one
    returns [option], with [None] standing for the abort.
  - Pointers that are only [CHECK_NOTNULL]ed are passed by value; mutation
    through them is explicit state passing (the new map, the new
    candidate list, the new deletion set are returned).
  - [VLOG] output does not influence any state and is left out;
    [LOG(ERROR)] lines are collected in an explicit list. *)

From Stdlib Require Import Floats ZArith.
From stdpp Require Import base option list gmap sets strings.

#[local] Set Warnings "-clear-no-such-hyp".

(** ** Eigen: the part of [Eigen::Vector3d] the selection uses

    Modelled from the spec: the position/distance utility is the Euclidean
    distance of two 3D points, computed in [double]. *)
Module Eigen.

Record Vector3d := { vx : float; vy : float; vz : float }.

(** [a - b], coefficient-wise. *)
Definition sub (a b : Vector3d) : Vector3d :=
  {| vx := PrimFloat.sub (vx a) (vx b);
     vy := PrimFloat.sub (vy a) (vy b);
     vz := PrimFloat.sub (vz a) (vz b) |}.

(** [v.squaredNorm()]: the sum of the squared coefficients, in the order of
    Eigen's unrolled reduction for a fixed size of 3, [x² + (y² + z²)]. The
    general statements below hold for any order; in the worked example every
    operation is exact. *)
Definition squaredNorm (v : Vector3d) : float :=
  PrimFloat.add
    (PrimFloat.mul (vx v) (vx v))
    (PrimFloat.add (PrimFloat.mul (vy v) (vy v))
                   (PrimFloat.mul (vz v) (vz v))).

(** [v.norm()] is [sqrt(v.squaredNorm())]. *)
Definition norm (v : Vector3d) : float := PrimFloat.sqrt (squaredNorm v).

End Eigen.

(** ** The pose graph consumed by the selection *)
Module vi_map.

Abbreviation VertexId := N (only parsing).
Abbreviation EdgeId := N (only parsing).

(** Modelled from the spec: [pose_graph::Edge::EdgeType] is declared outside
    this file; only [kLoopClosure] is named by the selection, every other
    kind of edge is [kOtherType]. *)
Inductive EdgeType := kLoopClosure | kOtherType.

#[global] Instance EdgeType_eq_dec : EqDecision EdgeType.
Proof. solve_decision. Defined.

(** Modelled from the spec: a vertex exposes its position [p_M_I]. *)
Record Vertex := { get_p_M_I : Eigen.Vector3d }.

(** Modelled from the spec: a directed edge with [from()], [to()] and, read
    through [getEdgeAs<LoopClosureEdge>], a [double] switch variable. *)
Record Edge := {
  edge_type : EdgeType;
  from : VertexId;
  to : VertexId;
  getSwitchVariable : float
}.

(** Modelled from the spec: [vi_map::VIMap] is the external storage engine;
    it is a finite map of vertices and a finite map of edges, keyed by
    their ids. Several edges may join the same ordered pair. *)
Record VIMap := {
  vertices : gmap VertexId Vertex;
  edges : gmap EdgeId Edge
}.

(** Modelled from the spec: [getVertex] is fatal on an unknown id. *)
Definition getVertex (map : VIMap) (id : VertexId) : option Vertex :=
  vertices map !! id.

Definition hasEdge (map : VIMap) (id : EdgeId) : bool :=
  bool_decide (is_Some (edges map !! id)).

(** Modelled from the spec: [getEdgeAs<LoopClosureEdge>] must succeed on an
    existing loop-closure edge and is fatal otherwise. *)
Definition getEdgeAs_LoopClosureEdge (map : VIMap) (id : EdgeId)
  : option Edge :=
  match edges map !! id with
  | Some e => if decide (edge_type e = kLoopClosure) then Some e else None
  | None => None
  end.

(** Modelled from the spec: [getOutgoingOfType(type, v, &out)] lists the ids
    of the edges of kind [type] that leave [v]; the vertex must exist. The
    order of the list is the storage engine's. *)
Definition getOutgoingOfType (map : VIMap) (type : EdgeType) (v : VertexId)
  : option (list EdgeId) :=
  match getVertex map v with
  | None => None
  | Some _ =>
      Some ((filter (λ p : EdgeId * Edge,
                       from p.2 = v ∧ edge_type p.2 = type)
                    (map_to_list (edges map))).*1)
  end.

(** Modelled from the spec: [removeEdge] is fatal when the edge is absent. *)
Definition removeEdge (map : VIMap) (id : EdgeId) : option VIMap :=
  if hasEdge map id
  then Some {| vertices := vertices map; edges := delete id (edges map) |}
  else None.

End vi_map.

(** ** The selection itself *)
Module dense_mapping.
Import vi_map.

(** Modelled from the spec: of an [AlignmentCandidate] the selection reads
    only [closest_vertex_id]. *)
Record AlignmentCandidate := { closest_vertex_id : VertexId }.

(** Modelled from the spec: [isValid()] is an opaque capability of the
    candidate type, so the pair carries its answer. *)
Record AlignmentCandidatePair := {
  candidate_A : AlignmentCandidate;
  candidate_B : AlignmentCandidate;
  isValid : bool
}.

(** The collection in iteration order; [erase(it)] removes the element the
    iterator designates and keeps the order of the others. *)
Abbreviation AlignmentCandidatePairs := (list AlignmentCandidatePair)
  (only parsing).

(** Modelled from the spec: the fields of [SelectionConfig] (the struct is
    declared in the header); the cap is a signed integer, the thresholds
    are [double]s. *)
Record SelectionConfig := {
  recompute_all_constraints : bool;
  recompute_invalid_constraints : bool;
  constraint_min_switch_variable_value : float;
  max_number_of_candidates : Z;
  filter_strategy : string;
  min_distance_to_next_candidate : float
}.

(** *** [hasGoodLoopClosureEdgeFromAToB] *)

(** The body of the [for] loop over [outgoing_lc_edges_A], threading
    [has_good_edge] and the deletion set. *)
Fixpoint lc_edge_loop (config : SelectionConfig) (map : VIMap)
    (vertex_id_A vertex_id_B : VertexId) (outgoing : list EdgeId)
    (has_good_edge : bool) (constraints_to_delete : gset EdgeId)
  : option (bool * gset EdgeId) :=
  match outgoing with
  | [] => Some (has_good_edge, constraints_to_delete)
  | edge_id :: outgoing' =>
      if negb (hasEdge map edge_id) then None else
      match getEdgeAs_LoopClosureEdge map edge_id with
      | None => None
      | Some edge =>
          if negb (bool_decide (from edge = vertex_id_A)) then None
          else if negb (bool_decide (to edge = vertex_id_B)) then
            lc_edge_loop config map vertex_id_A vertex_id_B outgoing'
              has_good_edge constraints_to_delete
          else
            let is_good_edge :=
              PrimFloat.leb (constraint_min_switch_variable_value config)
                            (getSwitchVariable edge) in
            let constraints_to_delete' :=
              if (negb is_good_edge && recompute_invalid_constraints config)
                 || recompute_all_constraints config
              then {[ edge_id ]} ∪ constraints_to_delete
              else constraints_to_delete in
            lc_edge_loop config map vertex_id_A vertex_id_B outgoing'
              (has_good_edge || is_good_edge) constraints_to_delete'
      end
  end.

Definition hasGoodLoopClosureEdgeFromAToB (config : SelectionConfig)
    (map : VIMap) (vertex_id_A vertex_id_B : VertexId)
    (constraints_to_delete_edge_ids : gset EdgeId)
  : option (bool * gset EdgeId) :=
  match getOutgoingOfType map kLoopClosure vertex_id_A with
  | None => None
  | Some outgoing_lc_edges_A =>
      lc_edge_loop config map vertex_id_A vertex_id_B outgoing_lc_edges_A
        false constraints_to_delete_edge_ids
  end.

(** *** [filter_candidates_based_on_quality] *)

(** [A→B || B→A]: the second call is made only if the first answers
    [false], as [||] short-circuits. *)
Definition has_good_lc_edge_either (config : SelectionConfig) (map : VIMap)
    (vertex_id_A vertex_id_B : VertexId) (del : gset EdgeId)
  : option (bool * gset EdgeId) :=
  match hasGoodLoopClosureEdgeFromAToB config map vertex_id_A vertex_id_B del
  with
  | None => None
  | Some (true, del1) => Some (true, del1)
  | Some (false, del1) =>
      hasGoodLoopClosureEdgeFromAToB config map vertex_id_B vertex_id_A del1
  end.

(** The [while (it != end)] loop; the argument is the part of the
    collection from [it] on, the result the surviving part of it. *)
Fixpoint quality_loop (config : SelectionConfig) (map : VIMap)
    (candidate_pairs : AlignmentCandidatePairs)
    (constraints_to_delete : gset EdgeId)
  : option (AlignmentCandidatePairs * gset EdgeId) :=
  match candidate_pairs with
  | [] => Some ([], constraints_to_delete)
  | alignment :: rest =>
      if negb (isValid alignment) then
        quality_loop config map rest constraints_to_delete
      else
        let vertex_id_B := closest_vertex_id (candidate_B alignment) in
        let vertex_id_A := closest_vertex_id (candidate_A alignment) in
        match has_good_lc_edge_either config map vertex_id_A vertex_id_B
                constraints_to_delete with
        | None => None
        | Some (has_good_lc_edge, del') =>
            if has_good_lc_edge && negb (recompute_all_constraints config)
            then quality_loop config map rest del'
            else
              match quality_loop config map rest del' with
              | None => None
              | Some (kept, del'') => Some (alignment :: kept, del'')
              end
        end
  end.

(** The [for] loop that removes the collected edges. *)
Fixpoint remove_edges (map : VIMap) (edge_ids : list EdgeId)
  : option VIMap :=
  match edge_ids with
  | [] => Some map
  | edge_id :: edge_ids' =>
      match removeEdge map edge_id with
      | None => None
      | Some map' => remove_edges map' edge_ids'
      end
  end.

Definition filter_candidates_based_on_quality (config : SelectionConfig)
    (map : VIMap) (candidate_pairs : AlignmentCandidatePairs)
  : option (VIMap * AlignmentCandidatePairs) :=
  match quality_loop config map candidate_pairs ∅ with
  | None => None
  | Some (kept, constraints_to_delete_edge_ids) =>
      if recompute_all_constraints config
         || recompute_invalid_constraints config
      then
        match remove_edges map (elements constraints_to_delete_edge_ids) with
        | None => None
        | Some map' => Some (map', kept)
        end
      else Some (map, kept)
  end.

(** *** [filter_candidates_randomly] *)

(** The outcome of [std::shuffle] on the vector of iterators under the run's
    entropy. An iterator is the position its element had when the vector was
    filled by [std::iota]. *)
Definition Shuffle := list nat → list nat.

Definition shuffle_permutes (shuffle : Shuffle) : Prop :=
  ∀ v : list nat, shuffle v ≡ₚ v.

(** The collection together with the iterator of each element. *)
Definition with_iterators (candidate_pairs : AlignmentCandidatePairs)
  : list (nat * AlignmentCandidatePair) :=
  zip (seq 0 (length candidate_pairs)) candidate_pairs.

(** [erase(it)]: the designated element goes, the others keep their
    iterators and their order. *)
Definition erase (it : nat) (l : list (nat * AlignmentCandidatePair))
  : list (nat * AlignmentCandidatePair) :=
  filter (λ p : nat * AlignmentCandidatePair, p.1 ≠ it) l.

Definition filter_candidates_randomly (shuffle : Shuffle)
    (max_number_of_candidates : nat)
    (candidate_pairs : AlignmentCandidatePairs) : AlignmentCandidatePairs :=
  let n_candidates := length candidate_pairs in
  let v := shuffle (seq 0 n_candidates) in
  let n_candidates_to_delete :=
    n_candidates - Nat.min n_candidates max_number_of_candidates in
  (foldl (λ l it, erase it l) (with_iterators candidate_pairs)
         (take n_candidates_to_delete v)).*2.

(** *** [filter_candidates_based_on_distance] *)

(** The lambda given to [std::all_of]. *)
Definition farther_than (min_distance_to_next_candidate : float)
    (position_A p_M_I : Eigen.Vector3d) : bool :=
  let distance := Eigen.norm (Eigen.sub position_A p_M_I) in
  PrimFloat.ltb min_distance_to_next_candidate distance.

(** The [while (it != end)] loop; the argument is the part of the collection
    from [it] on. The result is what that part has become when the loop is
    left, with the final value of the local [candidate_positions]. At
    [break] the iterator still designates the accepted candidate, and
    nothing from there on is touched. *)
Fixpoint distance_loop (max_number_of_candidates : nat)
    (min_distance_to_next_candidate : float) (map : VIMap)
    (candidate_positions : list Eigen.Vector3d)
    (candidate_pairs : AlignmentCandidatePairs)
  : option (AlignmentCandidatePairs * list Eigen.Vector3d) :=
  match candidate_pairs with
  | [] => Some ([], candidate_positions)
  | alignment :: rest =>
      match getVertex map (closest_vertex_id (candidate_A alignment)) with
      | None => None
      | Some vertex_A =>
          let position_A := get_p_M_I vertex_A in
          let valid_candidate :=
            forallb (farther_than min_distance_to_next_candidate position_A)
                    candidate_positions in
          if valid_candidate then
            let candidate_positions' := candidate_positions ++ [position_A] in
            if max_number_of_candidates <=? length candidate_positions'
            then Some (alignment :: rest, candidate_positions')
            else
              match distance_loop max_number_of_candidates
                      min_distance_to_next_candidate map
                      candidate_positions' rest with
              | None => None
              | Some (rest', final_positions) =>
                  Some (alignment :: rest', final_positions)
              end
          else
            distance_loop max_number_of_candidates
              min_distance_to_next_candidate map candidate_positions rest
      end
  end.

Definition filter_candidates_based_on_distance
    (max_number_of_candidates : nat)
    (min_distance_to_next_candidate : float) (map : VIMap)
    (candidate_pairs : AlignmentCandidatePairs)
  : option AlignmentCandidatePairs :=
  match distance_loop max_number_of_candidates
          min_distance_to_next_candidate map [] candidate_pairs with
  | None => None
  | Some (candidate_pairs', _) => Some candidate_pairs'
  end.

(** *** [filter_candidates_based_on_strategy] *)

(** The result is the new collection and the [LOG(ERROR)] lines written.
    Past the guard the cap is not negative, so its conversion to
    [std::size_t] keeps its value. *)
Definition filter_candidates_based_on_strategy (shuffle : Shuffle)
    (config : SelectionConfig) (map : VIMap)
    (candidate_pairs : AlignmentCandidatePairs)
  : option (AlignmentCandidatePairs * list string) :=
  if bool_decide (max_number_of_candidates config < 0)%Z then
    Some (candidate_pairs, [])
  else if bool_decide (filter_strategy config = "random") then
    Some (filter_candidates_randomly shuffle
            (Z.to_nat (max_number_of_candidates config)) candidate_pairs, [])
  else if bool_decide (filter_strategy config = "distance") then
    match filter_candidates_based_on_distance
            (Z.to_nat (max_number_of_candidates config))
            (min_distance_to_next_candidate config) map candidate_pairs with
    | None => None
    | Some candidate_pairs' => Some (candidate_pairs', [])
    end
  else
    Some (candidate_pairs,
          [String.append "Unknown filter strategy " (filter_strategy config)]).

(** *** [selectAlignmentCandidatePairs] *)

Record Selection := {
  returned : bool;
  selected_map : VIMap;
  selected_pairs : AlignmentCandidatePairs;
  error_log : list string
}.

Definition selectAlignmentCandidatePairs (shuffle : Shuffle)
    (config : SelectionConfig) (map : VIMap)
    (candidate_pairs : AlignmentCandidatePairs) : option Selection :=
  match filter_candidates_based_on_quality config map candidate_pairs with
  | None => None
  | Some (map', candidate_pairs') =>
      match filter_candidates_based_on_strategy shuffle config map'
              candidate_pairs' with
      | None => None
      | Some (candidate_pairs'', errors) =>
          Some {| returned := true;
                  selected_map := map';
                  selected_pairs := candidate_pairs'';
                  error_log := errors |}
      end
  end.

End dense_mapping.

Import vi_map dense_mapping.

(** ** Vocabulary of the statements *)

(** The candidate's two vertices. *)
Definition vertex_A (c : AlignmentCandidatePair) : VertexId :=
  closest_vertex_id (candidate_A c).

Definition vertex_B (c : AlignmentCandidatePair) : VertexId :=
  closest_vertex_id (candidate_B c).

(** The quality test of the source: [switchVariable >= threshold]. *)
Definition good_edge (config : SelectionConfig) (e : Edge) : bool :=
  PrimFloat.leb (constraint_min_switch_variable_value config)
                (getSwitchVariable e).

(** An inspected edge is put in the deletion set under this condition. *)
Definition marked_for_deletion (config : SelectionConfig) (e : Edge) : bool :=
  (negb (good_edge config e) && recompute_invalid_constraints config)
  || recompute_all_constraints config.

(** A loop-closure edge of the map that goes from [a] to [b]. *)
Definition lc_edge_from_to (map : VIMap) (a b : VertexId)
    (id : EdgeId) (e : Edge) : Prop :=
  edges map !! id = Some e ∧ edge_type e = kLoopClosure ∧
  from e = a ∧ to e = b.

(** A loop-closure edge between the two vertices of [c], either way. *)
Definition lc_edge_between (map : VIMap) (c : AlignmentCandidatePair)
    (id : EdgeId) (e : Edge) : Prop :=
  lc_edge_from_to map (vertex_A c) (vertex_B c) id e ∨
  lc_edge_from_to map (vertex_B c) (vertex_A c) id e.

(** The candidate has a good loop-closure edge, in one direction or the
    other. *)
Definition has_good_prior (config : SelectionConfig) (map : VIMap)
    (c : AlignmentCandidatePair) : Prop :=
  ∃ id e, lc_edge_between map c id e ∧ good_edge config e = true.

(** What the quality pass inspects for a candidate (A,B): every loop-closure
    edge from A to B, and those from B to A only when no edge from A to B is
    good, as the second call sits behind [||]. *)
Definition inspected (config : SelectionConfig) (map : VIMap)
    (c : AlignmentCandidatePair) (id : EdgeId) (e : Edge) : Prop :=
  lc_edge_from_to map (vertex_A c) (vertex_B c) id e ∨
  (lc_edge_from_to map (vertex_B c) (vertex_A c) id e ∧
   ¬ ∃ id' e', lc_edge_from_to map (vertex_A c) (vertex_B c) id' e' ∧
               good_edge config e' = true).

(** The condition under which the quality pass hits no [CHECK] on a
    candidate: its A vertex is in the map, and so is its B vertex unless a
    good edge from A to B makes the second call unnecessary. *)
Definition lookups_succeed (config : SelectionConfig) (map : VIMap)
    (c : AlignmentCandidatePair) : Prop :=
  is_Some (vertices map !! vertex_A c) ∧
  ((∃ id e, lc_edge_from_to map (vertex_A c) (vertex_B c) id e ∧
            good_edge config e = true) ∨
   is_Some (vertices map !! vertex_B c)).

(** The map holds both vertices of every valid candidate, the precondition
    under which the quality pass hits no [CHECK]. *)
Definition candidates_in_map (map : VIMap)
    (candidate_pairs : list AlignmentCandidatePair) : Prop :=
  ∀ c, c ∈ candidate_pairs → isValid c = true →
    is_Some (vertices map !! vertex_A c) ∧
    is_Some (vertices map !! vertex_B c).

(** The configuration with another strategy named. *)
Definition with_strategy (strategy : string) (config : SelectionConfig)
  : SelectionConfig :=
  {| recompute_all_constraints := recompute_all_constraints config;
     recompute_invalid_constraints := recompute_invalid_constraints config;
     constraint_min_switch_variable_value :=
       constraint_min_switch_variable_value config;
     max_number_of_candidates := max_number_of_candidates config;
     filter_strategy := strategy;
     min_distance_to_next_candidate := min_distance_to_next_candidate config |}.

(** The position the distance strategy reads for a candidate. *)
Definition position_of (map : VIMap) (c : AlignmentCandidatePair)
  : option Eigen.Vector3d :=
  get_p_M_I <$> getVertex map (vertex_A c).

(** Every position is farther than [d] from each position before it, the
    distance being computed as the source does (later minus earlier). *)
Definition positions_apart (d : float) (ps : list Eigen.Vector3d) : Prop :=
  ∀ i j p q, i < j → ps !! i = Some p → ps !! j = Some q →
    farther_than d q p = true.

(** The same for the candidates of a collection. *)
Definition pairwise_apart (d : float) (map : VIMap)
    (l : list AlignmentCandidatePair) : Prop :=
  ∀ i j ci cj p q, i < j → l !! i = Some ci → l !! j = Some cj →
    position_of map ci = Some p → position_of map cj = Some q →
    farther_than d q p = true.

(** ** Concrete maps and candidates *)

Definition vec (x y z : float) : Eigen.Vector3d :=
  {| Eigen.vx := x; Eigen.vy := y; Eigen.vz := z |}.

Definition vertex_at (x y z : float) : Vertex :=
  {| get_p_M_I := vec x y z |}.

Definition candidate (a b : VertexId) : AlignmentCandidatePair :=
  {| candidate_A := {| closest_vertex_id := a |};
     candidate_B := {| closest_vertex_id := b |};
     isValid := true |}.

Definition invalid_candidate (a b : VertexId) : AlignmentCandidatePair :=
  {| candidate_A := {| closest_vertex_id := a |};
     candidate_B := {| closest_vertex_id := b |};
     isValid := false |}.

Definition lc_edge (a b : VertexId) (switch_variable : float) : Edge :=
  {| edge_type := kLoopClosure; from := a; to := b;
     getSwitchVariable := switch_variable |}.

(** Vertices 1 to 5 lie at (0,0,0), (1,0,0), (5,0,0), (5,1,0), (10,0,0);
    vertices 11 to 15 are their partners in another region. *)
Definition line_vertices : gmap VertexId Vertex :=
  list_to_map
    [ (1%N, vertex_at 0 0 0); (2%N, vertex_at 1 0 0); (3%N, vertex_at 5 0 0);
      (4%N, vertex_at 5 1 0); (5%N, vertex_at 10 0 0);
      (11%N, vertex_at 100 0 0); (12%N, vertex_at 101 0 0);
      (13%N, vertex_at 105 0 0); (14%N, vertex_at 105 1 0);
      (15%N, vertex_at 110 0 0) ].

(** No edge at all. *)
Definition line_map : VIMap := {| vertices := line_vertices; edges := ∅ |}.

Definition line_candidates : list AlignmentCandidatePair :=
  [ candidate 1 11; candidate 2 12; candidate 3 13; candidate 4 14;
    candidate 5 15 ].

(** Edge 100 goes 1→11 with a NaN switch variable, edge 101 goes 12→2 and
    is good, edge 102 goes 3→13 and is bad, edge 103 goes 3→14 and is good,
    edge 104 is of another kind. *)
Definition loop_map : VIMap :=
  {| vertices := line_vertices;
     edges := list_to_map
       [ (100%N, lc_edge 1 11 nan); (101%N, lc_edge 12 2 0.75);
         (102%N, lc_edge 3 13 0.25); (103%N, lc_edge 3 14 0.75);
         (104%N, {| edge_type := kOtherType; from := 4; to := 14;
                    getSwitchVariable := 0 |}) ] |}.

Definition example_config (recompute_all recompute_invalid : bool)
    (cap : Z) (strategy : string) : SelectionConfig :=
  {| recompute_all_constraints := recompute_all;
     recompute_invalid_constraints := recompute_invalid;
     constraint_min_switch_variable_value := 0.5;
     max_number_of_candidates := cap;
     filter_strategy := strategy;
     min_distance_to_next_candidate := 2 |}.

(** A shuffle that reverses the vector. *)
Definition reversing_shuffle : Shuffle := reverse.

(** ** Comparisons of [double]s *)
Section comparisons.

Lemma SFcompare_antisym a b c :
  SFcompare a b = Some c → SFcompare b a = Some (CompOpp c).
Proof.
  destruct a as [sa|sa| |sa ma ea], b as [sb|sb| |sb mb eb]; cbn;
    try discriminate;
    try (destruct sa); try (destruct sb); cbn; intros [= <-]; try reflexivity.
  - rewrite (Z.compare_antisym ea eb).
    destruct (ea ?= eb)%Z eqn:He; cbn; try reflexivity.
    do 2 f_equal. symmetry. apply (Pos.compare_cont_antisym ma mb Eq).
  - rewrite (Z.compare_antisym ea eb).
    destruct (ea ?= eb)%Z eqn:He; cbn; try reflexivity.
    f_equal. symmetry. apply (Pos.compare_cont_antisym ma mb Eq).
Qed.

Lemma SFcompare_None a b :
  SFcompare a b = None → a = S754_nan ∨ b = S754_nan.
Proof.
  destruct a as [sa|sa| |sa ma ea], b as [sb|sb| |sb mb eb]; cbn;
    try discriminate; auto.
Qed.

Lemma is_nan_of_spec x : Prim2SF x = S754_nan → PrimFloat.is_nan x = true.
Proof.
  intros H. unfold PrimFloat.is_nan. by rewrite FloatAxioms.eqb_spec, H.
Qed.

(** When [x >= y] is false, either [x < y] or one of the two is a NaN. *)
Lemma not_geb_cases x y :
  PrimFloat.leb y x = false →
  PrimFloat.ltb x y = true ∨
  PrimFloat.is_nan x = true ∨ PrimFloat.is_nan y = true.
Proof.
  rewrite FloatAxioms.leb_spec, FloatAxioms.ltb_spec. unfold SFleb, SFltb.
  destruct (SFcompare (Prim2SF y) (Prim2SF x)) as [c|] eqn:Hc.
  - rewrite (SFcompare_antisym _ _ _ Hc). destruct c; try done. by left.
  - intros _. right.
    destruct (SFcompare_None _ _ Hc) as [?|?]; [right|left];
      by apply is_nan_of_spec.
Qed.

End comparisons.

(** ** The edge quality inspector *)
Section inspector.
Context (config : SelectionConfig) (map : VIMap).

Lemma elem_of_getOutgoingOfType type v l id :
  getOutgoingOfType map type v = Some l →
  id ∈ l ↔ ∃ e, edges map !! id = Some e ∧ from e = v ∧ edge_type e = type.
Proof.
  unfold getOutgoingOfType. destruct (getVertex map v); [|done].
  intros [= <-]. rewrite list_elem_of_fmap. split.
  - intros ([id' e] & -> & [[??] ?%elem_of_map_to_list]%list_elem_of_filter).
    by exists e.
  - intros (e & He & ? & ?). exists (id, e). split; [done|].
    apply list_elem_of_filter. split; [done|]. by apply elem_of_map_to_list.
Qed.

Lemma getOutgoingOfType_is_Some type v :
  is_Some (vertices map !! v) → is_Some (getOutgoingOfType map type v).
Proof. unfold getOutgoingOfType, getVertex. by intros [? ->]. Qed.

Lemma getEdgeAs_lc id e :
  edges map !! id = Some e → edge_type e = kLoopClosure →
  hasEdge map id = true ∧ getEdgeAs_LoopClosureEdge map id = Some e.
Proof.
  intros He Ht. unfold hasEdge, getEdgeAs_LoopClosureEdge. rewrite He. split.
  - by apply bool_decide_eq_true.
  - by rewrite decide_True.
Qed.

(** On ids that all name loop-closure edges leaving [a], the loop hits no
    [CHECK]; its answer and the deletion set it leaves are these. *)
Lemma lc_edge_loop_spec a b ids has_good del :
  (∀ id, id ∈ ids →
     ∃ e, edges map !! id = Some e ∧ from e = a ∧
          edge_type e = kLoopClosure) →
  ∃ has_good' del',
    lc_edge_loop config map a b ids has_good del = Some (has_good', del') ∧
    (has_good' = true ↔
       has_good = true ∨
       ∃ id e, id ∈ ids ∧ edges map !! id = Some e ∧ to e = b ∧
               good_edge config e = true) ∧
    (∀ id, id ∈ del' ↔
       id ∈ del ∨
       ∃ e, id ∈ ids ∧ edges map !! id = Some e ∧ to e = b ∧
            marked_for_deletion config e = true).
Proof.
  revert has_good del.
  induction ids as [|id ids IH]; intros has_good del Hids.
  - exists has_good, del. split; [done|]. split.
    + split; [by left|]. intros [?|(?&?&[]%elem_of_nil&_)]; done.
    + intros id. split; [by left|]. intros [?|(?&[]%elem_of_nil&_)]; done.
  - destruct (Hids id) as (e & He & Hfrom & Htype); [by left|].
    destruct (getEdgeAs_lc id e He Htype) as [Hhas Hget].
    assert (Hids' : ∀ id', id' ∈ ids →
              ∃ e', edges map !! id' = Some e' ∧ from e' = a ∧
                    edge_type e' = kLoopClosure).
    { intros id' ?. apply Hids. by right. }
    cbn [lc_edge_loop]. rewrite Hhas, Hget. cbn [negb].
    rewrite (bool_decide_eq_true_2 _ Hfrom). cbn [negb].
    destruct (decide (to e = b)) as [Hto|Hto].
    + rewrite (bool_decide_eq_true_2 _ Hto). cbn [negb].
      fold (good_edge config e). fold (marked_for_deletion config e).
      destruct (IH (has_good || good_edge config e)
                  (if marked_for_deletion config e then {[id]} ∪ del else del) Hids')
        as (hg' & del' & -> & Hhg & Hdel).
      exists hg', del'. split; [done|]. split.
      * rewrite Hhg, orb_true_iff. split.
        -- intros [[?|?]|(id' & e' & ? & ?)]; [by left| |].
           ++ right. exists id, e. split; [by left|done].
           ++ right. exists id', e'. split; [by right|done].
        -- intros [?|(id' & e' & [->|?]%elem_of_cons & He' & ? & ?)].
           ++ by left; left.
           ++ left; right. congruence.
           ++ right. by exists id', e'.
      * intros id'. rewrite Hdel. split.
        -- intros [Hin|(e' & ? & ?)].
           ++ destruct (marked_for_deletion config e) eqn:Hm; [|by left].
              apply elem_of_union in Hin as [->%elem_of_singleton|?];
                [|by left].
              right. exists e. split; [by left|done].
           ++ right. exists e'. split; [by right|done].
        -- intros [?|(e' & [->|?]%elem_of_cons & He' & ? & Hm)].
           ++ left. destruct (marked_for_deletion config e); [|done].
              apply elem_of_union. by right.
           ++ left. assert (e' = e) as -> by congruence.
              rewrite Hm. apply elem_of_union. left.
              by apply elem_of_singleton.
           ++ right. by exists e'.
    + rewrite (bool_decide_eq_false_2 _ Hto). cbn [negb].
      destruct (IH has_good del Hids') as (hg' & del' & -> & Hhg & Hdel).
      exists hg', del'. split; [done|]. split.
      * rewrite Hhg. split.
        -- intros [?|(id' & e' & ? & ?)]; [by left|].
           right. exists id', e'. split; [by right|done].
        -- intros [?|(id' & e' & [->|?]%elem_of_cons & He' & ? & ?)].
           ++ by left.
           ++ congruence.
           ++ right. by exists id', e'.
      * intros id'. rewrite Hdel. split.
        -- intros [?|(e' & ? & ?)]; [by left|].
           right. exists e'. split; [by right|done].
        -- intros [?|(e' & [->|?]%elem_of_cons & He' & ? & ?)].
           ++ by left.
           ++ congruence.
           ++ right. by exists e'.
Qed.

(** What one call of the inspector answers and leaves in the set. *)
Lemma hasGoodLoopClosureEdgeFromAToB_spec a b del :
  is_Some (vertices map !! a) →
  ∃ has_good del',
    hasGoodLoopClosureEdgeFromAToB config map a b del
      = Some (has_good, del') ∧
    (has_good = true ↔
       ∃ id e, lc_edge_from_to map a b id e ∧ good_edge config e = true) ∧
    (∀ id, id ∈ del' ↔
       id ∈ del ∨
       ∃ e, lc_edge_from_to map a b id e ∧ marked_for_deletion config e = true).
Proof.
  intros Ha. unfold hasGoodLoopClosureEdgeFromAToB.
  destruct (getOutgoingOfType_is_Some kLoopClosure a Ha) as [ids Hids].
  rewrite Hids.
  pose proof (λ id, elem_of_getOutgoingOfType kLoopClosure a ids id Hids)
    as Hin.
  destruct (lc_edge_loop_spec a b ids false del)
    as (hg & del' & Hrun & Hhg & Hdel).
  { intros id (e & ? & ? & ?)%Hin. by exists e. }
  exists hg, del'. split; [done|]. unfold lc_edge_from_to. split.
  - rewrite Hhg. split.
    + intros [?|(id & e & (e' & ? & ? & ?)%Hin & ? & ? & ?)]; [done|].
      assert (e' = e) as -> by congruence. by exists id, e.
    + intros (id & e & (? & ? & ? & ?) & ?). right. exists id, e.
      split; [|done]. apply Hin. by exists e.
  - intros id. rewrite Hdel. split.
    + intros [?|(e & (e' & ? & ? & ?)%Hin & ? & ? & ?)]; [by left|].
      assert (e' = e) as -> by congruence. right. by exists e.
    + intros [?|(e & (? & ? & ? & ?) & ?)]; [by left|]. right. exists e.
      split; [|done]. apply Hin. by exists e.
Qed.

End inspector.

(** ** The quality pass *)
Section quality.
Context (config : SelectionConfig).

Lemma has_good_lc_edge_either_spec map a b del :
  is_Some (vertices map !! a) → is_Some (vertices map !! b) →
  ∃ has_good del',
    has_good_lc_edge_either config map a b del = Some (has_good, del') ∧
    (has_good = true ↔
       ∃ id e, (lc_edge_from_to map a b id e ∨ lc_edge_from_to map b a id e)
               ∧ good_edge config e = true) ∧
    (∀ id, id ∈ del' →
       id ∈ del ∨
       ∃ e, (lc_edge_from_to map a b id e ∨ lc_edge_from_to map b a id e)
            ∧ marked_for_deletion config e = true).
Proof.
  intros Ha Hb. unfold has_good_lc_edge_either.
  destruct (hasGoodLoopClosureEdgeFromAToB_spec config map a b del Ha)
    as (hg1 & del1 & -> & Hhg1 & Hdel1).
  destruct hg1.
  - exists true, del1. split; [done|]. split.
    + split; [|done]. intros _.
      destruct (proj1 Hhg1 eq_refl) as (id & e & ? & ?).
      exists id, e. split; [by left|done].
    + intros id [?|(e & ? & ?)]%Hdel1; [by left|].
      right. exists e. split; [by left|done].
  - destruct (hasGoodLoopClosureEdgeFromAToB_spec config map b a del1 Hb)
      as (hg2 & del2 & -> & Hhg2 & Hdel2).
    exists hg2, del2. split; [done|]. split.
    + rewrite Hhg2. split.
      * intros (id & e & ? & ?). exists id, e. split; [by right|done].
      * intros (id & e & [Hab|?] & ?); [|by exists id, e].
        assert (false = true); [|done]. apply Hhg1. by exists id, e.
    + intros id [[?|(e & ? & ?)]%Hdel1|(e & ? & ?)]%Hdel2.
      * by left.
      * right. exists e. split; [by left|done].
      * right. exists e. split; [by right|done].
Qed.

Lemma candidates_in_map_cons map c cs :
  candidates_in_map map (c :: cs) → candidates_in_map map cs.
Proof. intros H c' ?. apply H. by right. Qed.

(** The loop of the quality pass: it hits no [CHECK], keeps exactly the valid
    candidates that have no good prior edge (or all valid ones under
    [recompute_all_constraints]), and collects only marked edges that lie
    between the vertices of a valid candidate. *)
Lemma quality_loop_spec map cs del :
  candidates_in_map map cs →
  ∃ kept del',
    quality_loop config map cs del = Some (kept, del') ∧
    kept `sublist_of` cs ∧
    (∀ c, c ∈ kept ↔
       c ∈ cs ∧ isValid c = true ∧
       (recompute_all_constraints config = true ∨ ¬ has_good_prior config map c)) ∧
    (∀ id, id ∈ del' →
       id ∈ del ∨
       ∃ c e, c ∈ cs ∧ isValid c = true ∧ lc_edge_between map c id e ∧
              marked_for_deletion config e = true).
Proof.
  revert del. induction cs as [|c cs IH]; intros del Hin.
  - exists [], del. split; [done|]. split; [done|]. split.
    + intros c. split; [by intros []%elem_of_nil|].
      by intros [[]%elem_of_nil _].
    + intros id ?. by left.
  - pose proof (candidates_in_map_cons _ _ _ Hin) as Hin'.
    cbn [quality_loop]. destruct (isValid c) eqn:Hvalid; cbn [negb].
    + destruct (Hin c) as [Ha Hb]; [by left|done|].
      unfold vertex_A, vertex_B in Ha, Hb.
      destruct (has_good_lc_edge_either_spec map _ _ del Ha Hb)
        as (hg & del1 & -> & Hhg & Hdel1).
      destruct (IH del1 Hin') as (kept & del' & -> & Hsub & Hkept & Hdel').
      assert (Hdel : ∀ id, id ∈ del' →
                id ∈ del ∨
                ∃ c' e, c' ∈ c :: cs ∧ isValid c' = true ∧
                        lc_edge_between map c' id e ∧
                        marked_for_deletion config e = true).
      { intros id [[?|(e & ? & ?)]%Hdel1|(c' & e & ? & ?)]%Hdel'.
        - by left.
        - right. exists c, e. split; [by left|done].
        - right. exists c', e. split; [by right|done]. }
      assert (Hhg' : hg = true ↔ has_good_prior config map c) by done.
      destruct (hg && negb (recompute_all_constraints config)) eqn:Hdrop.
      * apply andb_true_iff in Hdrop as [-> Hall%negb_true_iff].
        exists kept, del'. split; [done|].
        split; [by apply sublist_cons|]. split; [|done].
        intros c'. rewrite Hkept, elem_of_cons. split; [naive_solver|].
        intros [[->|?] [? Hor]]; [|done].
        destruct Hor as [?|Hno]; [congruence|].
        destruct Hno. by apply Hhg'.
      * exists (c :: kept), del'. split; [done|].
        split; [by apply sublist_skip|]. split; [|done].
        intros c'. rewrite !elem_of_cons, Hkept. split; [|naive_solver].
        intros [->|?]; [|naive_solver]. split; [by left|]. split; [done|].
        apply andb_false_iff in Hdrop as [->|Hall%negb_false_iff];
          [|by left].
        right. intros ?%Hhg'. done.
    + destruct (IH del Hin') as (kept & del' & -> & Hsub & Hkept & Hdel').
      exists kept, del'. split; [done|].
      split; [by apply sublist_cons|]. split.
      * intros c'. rewrite Hkept, elem_of_cons. split; [naive_solver|].
        intros [[->|?] [? ?]]; [congruence|done].
      * intros id [?|(c' & e & ? & ?)]%Hdel'; [by left|].
        right. exists c', e. split; [by right|done].
Qed.

Lemma remove_edges_spec edge_ids : ∀ map,
  (∀ id, id ∈ edge_ids → is_Some (edges map !! id)) → NoDup edge_ids →
  ∃ map', remove_edges map edge_ids = Some map' ∧
    vertices map' = vertices map ∧
    ∀ id, edges map' !! id =
          if decide (id ∈ edge_ids) then None else edges map !! id.
Proof.
  induction edge_ids as [|id0 ids IH]; intros map Hex Hnd.
  - exists map. split; [done|]. split; [done|]. intros id.
    rewrite decide_False; [done|]. by intros []%elem_of_nil.
  - apply NoDup_cons in Hnd as [Hnotin Hnd]. cbn [remove_edges].
    unfold removeEdge, hasEdge.
    rewrite bool_decide_eq_true_2 by (apply Hex; by left).
    destruct (IH {| vertices := vertices map;
                    edges := delete id0 (edges map) |})
      as (map' & -> & Hv & He); [|done|].
    { intros id Hid. cbn. rewrite lookup_delete_ne.
      - apply Hex. by right.
      - intros ->. done. }
    exists map'. split; [done|]. split; [done|]. intros id. rewrite He. cbn.
    destruct (decide (id = id0)) as [->|Hne].
    + rewrite lookup_delete_eq.
      destruct (decide (id0 ∈ id0 :: ids)) as [_|Hn];
        [by destruct (decide (id0 ∈ ids))|].
      destruct Hn. by left.
    + rewrite lookup_delete_ne by done.
      destruct (decide (id ∈ ids)) as [Hi|Hi];
        destruct (decide (id ∈ id0 :: ids)) as [Hc|Hc]; try done.
      * destruct Hc. by right.
      * apply elem_of_cons in Hc as [?|?]; done.
Qed.

(** The quality pass as a whole. *)
Lemma filter_candidates_based_on_quality_spec map cs :
  candidates_in_map map cs →
  ∃ map' kept,
    filter_candidates_based_on_quality config map cs = Some (map', kept) ∧
    kept `sublist_of` cs ∧
    (∀ c, c ∈ kept ↔
       c ∈ cs ∧ isValid c = true ∧
       (recompute_all_constraints config = true ∨ ¬ has_good_prior config map c)) ∧
    vertices map' = vertices map ∧
    (∀ id e, edges map' !! id = Some e → edges map !! id = Some e) ∧
    (∀ id e, edges map !! id = Some e →
       edges map' !! id = Some e ∨
       (edges map' !! id = None ∧
        (recompute_all_constraints config
         || recompute_invalid_constraints config) = true ∧
        marked_for_deletion config e = true ∧
        ∃ c, c ∈ cs ∧ isValid c = true ∧ lc_edge_between map c id e)).
Proof.
  intros Hin. unfold filter_candidates_based_on_quality.
  destruct (quality_loop_spec map cs ∅ Hin)
    as (kept & del & -> & Hsub & Hkept & Hdel).
  assert (Hdel' : ∀ id, id ∈ del →
            ∃ c e, c ∈ cs ∧ isValid c = true ∧ lc_edge_between map c id e ∧
                   marked_for_deletion config e = true).
  { intros id [[]%not_elem_of_empty|?]%Hdel. done. }
  destruct (recompute_all_constraints config
            || recompute_invalid_constraints config) eqn:Hflags.
  - destruct (remove_edges_spec (elements del) map)
      as (map' & -> & Hv & He).
    { intros id (c & e & _ & _ & [(? & _)|(? & _)] & _)%elem_of_elements%Hdel';
        by exists e. }
    { apply NoDup_elements. }
    exists map', kept. split; [done|]. split; [done|]. split; [done|].
    split; [done|]. split.
    + intros id e. rewrite He. by destruct (decide (id ∈ elements del)).
    + intros id e Hide. rewrite He.
      destruct (decide (id ∈ elements del)) as [Hd|]; [|by left].
      right. split; [done|]. split; [done|].
      apply elem_of_elements, Hdel' in Hd as (c & e' & ? & ? & Hbetween & ?).
      assert (e' = e) as ->.
      { destruct Hbetween as [(? & _)|(? & _)]; congruence. }
      split; [done|]. by exists c.
  - exists map, kept. split; [done|]. split; [done|]. split; [done|].
    split; [done|]. split; [done|]. intros id e ?. by left.
Qed.

End quality.

(** ** The distance strategy *)
Section distance.
Context (cap : nat) (d : float) (map : VIMap).

Lemma positions_apart_nil : positions_apart d [].
Proof. intros i j p q _ Hi. by rewrite lookup_nil in Hi. Qed.

(** Accepting a position that passed the [all_of] test keeps the accepted
    positions apart. *)
Lemma positions_apart_snoc ps p :
  positions_apart d ps →
  forallb (farther_than d p) ps = true →
  positions_apart d (ps ++ [p]).
Proof.
  intros Hps Hall i j q1 q2 Hij Hi Hj.
  apply lookup_app_Some in Hj as [Hj|[Hge Hj]].
  - apply lookup_lt_Some in Hj as Hlt.
    rewrite lookup_app_l in Hi by lia. by apply (Hps i j).
  - apply list_lookup_singleton_Some in Hj as [Hj0 <-].
    rewrite lookup_app_l in Hi by lia.
    rewrite forallb_forall in Hall. apply Hall.
    apply list_elem_of_In. by eapply list_elem_of_lookup_2.
Qed.

Lemma positions_apart_pairwise accepted ps :
  Forall2 (λ c p, position_of map c = Some p) accepted ps →
  positions_apart d ps → pairwise_apart d map accepted.
Proof.
  intros HF Hps i j ci cj p q Hij Hi Hj Hp Hq.
  destruct (Forall2_lookup_l _ _ _ _ _ HF Hi) as (p' & Hp' & Hpp).
  destruct (Forall2_lookup_l _ _ _ _ _ HF Hj) as (q' & Hq' & Hqq).
  assert (p' = p) as -> by congruence.
  assert (q' = q) as -> by congruence.
  by apply (Hps i j).
Qed.

Lemma pairwise_apart_take n l :
  pairwise_apart d map l → pairwise_apart d map (take n l).
Proof.
  intros Hl i j ci cj p q Hij Hi Hj.
  apply lookup_take_Some in Hi as [Hi _].
  apply lookup_take_Some in Hj as [Hj _]. by apply (Hl i j ci cj).
Qed.

Lemma pairwise_apart_short l : length l ≤ 1 → pairwise_apart d map l.
Proof.
  intros Hlen i j ci cj p q Hij _ Hj. apply lookup_lt_Some in Hj. lia.
Qed.

(** The shape of every exit of the loop: the part of the collection it was
    run on has become the accepted candidates followed by an untouched
    suffix of the input; the accepted positions were appended in order;
    the suffix is non-empty only after a [break]. *)
Lemma distance_loop_inv cs : ∀ positions out final,
  distance_loop cap d map positions cs = Some (out, final) →
  ∃ accepted unexamined ps,
    out = accepted ++ unexamined ∧
    final = positions ++ ps ∧
    Forall2 (λ c p, position_of map c = Some p) accepted ps ∧
    unexamined `suffix_of` cs ∧
    accepted ++ unexamined `sublist_of` cs ∧
    (positions_apart d positions → positions_apart d final) ∧
    (unexamined = [] ∨ cap ≤ length final) ∧
    length ps ≤ Nat.max 1 (cap - length positions).
Proof.
  induction cs as [|c cs IH]; intros positions out final Hrun.
  - injection Hrun as <- <-. exists [], [], [].
    split_and!; try done.
    + by rewrite app_nil_r.
    + by left.
    + cbn. lia.
  - cbn [distance_loop] in Hrun.
    destruct (getVertex map (closest_vertex_id (candidate_A c)))
      as [v|] eqn:Hv; [|done].
    destruct (forallb (farther_than d (get_p_M_I v)) positions) eqn:Hfar.
    + assert (Hpos : position_of map c = Some (get_p_M_I v)).
      { unfold position_of, vertex_A. by rewrite Hv. }
      destruct (cap <=? length (positions ++ [get_p_M_I v])) eqn:Hcap.
      * injection Hrun as <- <-. apply Nat.leb_le in Hcap.
        exists [c], cs, [get_p_M_I v]. split_and!; try done.
        -- by repeat constructor.
        -- by apply suffix_cons_r.
        -- intros ?. by apply positions_apart_snoc.
        -- by right.
        -- cbn. lia.
      * apply Nat.leb_gt in Hcap. rewrite length_app in Hcap. cbn in Hcap.
        destruct (distance_loop cap d map (positions ++ [get_p_M_I v]) cs)
          as [[rest' fin]|] eqn:Hrec; [|done].
        injection Hrun as <- <-.
        destruct (IH _ _ _ Hrec)
          as (acc & unex & ps & -> & -> & HF & Hsuf & Hsub & Hap & Hbrk & Hlen).
        exists (c :: acc), unex, (get_p_M_I v :: ps).
        rewrite length_app in Hlen. cbn in Hlen.
        split_and!.
        -- done.
        -- by rewrite <- app_assoc.
        -- by constructor.
        -- by apply suffix_cons_r.
        -- cbn. by apply sublist_skip.
        -- intros ?. by apply Hap, positions_apart_snoc.
        -- done.
        -- cbn. lia.
    + destruct (IH _ _ _ Hrun)
        as (acc & unex & ps & -> & -> & HF & Hsuf & Hsub & Hap & Hbrk & Hlen).
      exists acc, unex, ps. split_and!; try done.
      * by apply suffix_cons_r.
      * by apply sublist_cons.
Qed.

(** The loop hits no [CHECK] when the map holds the [candidate_A] vertex of
    every candidate. *)
Lemma distance_loop_returns cs : ∀ positions,
  (∀ c, c ∈ cs → is_Some (vertices map !! vertex_A c)) →
  is_Some (distance_loop cap d map positions cs).
Proof.
  induction cs as [|c cs IH]; intros positions Hin; [by eexists|].
  destruct (Hin c) as [v Hv]; [by left|].
  assert (Hin' : ∀ c', c' ∈ cs → is_Some (vertices map !! vertex_A c')).
  { intros c' ?. apply Hin. by right. }
  cbn [distance_loop]. unfold getVertex. unfold vertex_A in Hv. rewrite Hv.
  destruct (forallb _ _); [|by apply IH].
  destruct (_ <=? _); [by eexists|].
  destruct (IH (positions ++ [get_p_M_I v]) Hin') as [[??] ->]. by eexists.
Qed.

(** Once the cap has been reached inside a prefix, whatever follows the
    prefix is handed back as it is, and not even looked at. *)
Lemma distance_loop_app pre : ∀ positions out final rest,
  distance_loop cap d map positions pre = Some (out, final) →
  length positions < cap → cap ≤ length final →
  distance_loop cap d map positions (pre ++ rest) = Some (out ++ rest, final).
Proof.
  induction pre as [|c pre IH]; intros positions out final rest Hrun Hlt Hge.
  - injection Hrun as <- <-. lia.
  - cbn [distance_loop app] in *.
    destruct (getVertex map (closest_vertex_id (candidate_A c)))
      as [v|]; [|done].
    destruct (forallb (farther_than d (get_p_M_I v)) positions).
    + destruct (cap <=? length (positions ++ [get_p_M_I v])) eqn:Hcap.
      * by injection Hrun as <- <-.
      * apply Nat.leb_gt in Hcap.
        destruct (distance_loop cap d map (positions ++ [get_p_M_I v]) pre)
          as [[rest' fin]|] eqn:Hrec; [|done].
        injection Hrun as <- <-.
        by rewrite (IH _ _ _ rest Hrec Hcap Hge).
    + by apply IH.
Qed.

End distance.

(** ** The random strategy *)
Section random.

Lemma filter_none {A} (P : A → Prop) `{!∀ x, Decision (P x)} (l : list A) :
  (∀ x, x ∈ l → ¬ P x) → filter P l = [].
Proof.
  induction l as [|x l IH]; intros Hl; [done|].
  rewrite filter_cons_False by (apply Hl; by left).
  apply IH. intros y ?. apply Hl. by right.
Qed.

Lemma filter_all {A} (P : A → Prop) `{!∀ x, Decision (P x)} (l : list A) :
  (∀ x, x ∈ l → P x) → filter P l = l.
Proof.
  induction l as [|x l IH]; intros Hl; [done|].
  rewrite filter_cons_True by (apply Hl; by left).
  f_equal. apply IH. intros y ?. apply Hl. by right.
Qed.

Lemma length_filter_iterators (its : list nat)
    (l : list (nat * AlignmentCandidatePair)) :
  length (filter (λ p : nat * AlignmentCandidatePair, p.1 ∉ its) l)
  = length (filter (λ i, i ∉ its) (l.*1)).
Proof.
  induction l as [|[a b] l IH]; [done|].
  cbn [fmap list_fmap]. rewrite !filter_cons. cbn [fst].
  destruct (decide (a ∉ its)); cbn [length]; by rewrite IH.
Qed.

(** Erasing through a sequence of iterators leaves the elements whose
    iterator is not in the sequence. *)
Lemma foldl_erase its : ∀ l,
  foldl (λ l it, erase it l) l its
  = filter (λ p : nat * AlignmentCandidatePair, p.1 ∉ its) l.
Proof.
  induction its as [|it its IH]; intros l.
  - cbn. symmetry. apply filter_all. intros ? _. apply not_elem_of_nil.
  - cbn [foldl]. rewrite IH. unfold erase. rewrite list_filter_filter.
    apply list_filter_iff. intros p. rewrite not_elem_of_cons. tauto.
Qed.

Lemma with_iterators_fst cs : (with_iterators cs).*1 = seq 0 (length cs).
Proof. unfold with_iterators. apply fst_zip. by rewrite length_seq. Qed.

Lemma with_iterators_snd cs : (with_iterators cs).*2 = cs.
Proof. unfold with_iterators. apply snd_zip. by rewrite length_seq. Qed.

(** Dropping the first [m] entries of a duplicate-free vector by filtering
    leaves its remaining entries. *)
Lemma filter_not_in_take (v : list nat) m :
  NoDup v → filter (λ i, i ∉ take m v) v = drop m v.
Proof.
  intros Hnd. rewrite <- (take_drop m v) in Hnd.
  apply NoDup_app in Hnd as (_ & Hdisj & _).
  transitivity (filter (λ i, i ∉ take m v) (take m v ++ drop m v));
    [by rewrite take_drop|].
  rewrite filter_app.
  rewrite filter_none by (intros x Hx Hn; done).
  rewrite filter_all; [done|]. intros x Hx Hx'. by eapply Hdisj.
Qed.

Lemma filter_candidates_randomly_sublist shuffle k cs :
  filter_candidates_randomly shuffle k cs `sublist_of` cs.
Proof.
  unfold filter_candidates_randomly. rewrite foldl_erase.
  rewrite <- (with_iterators_snd cs) at 2.
  apply fmap_sublist, sublist_filter.
Qed.

Lemma filter_candidates_randomly_length shuffle k cs :
  shuffle_permutes shuffle →
  length (filter_candidates_randomly shuffle k cs)
  = Nat.min (length cs) k.
Proof.
  intros Hperm. unfold filter_candidates_randomly. rewrite foldl_erase.
  set (n := length cs). set (v := shuffle (seq 0 n)).
  set (m := n - Nat.min n k).
  assert (Hv : v ≡ₚ seq 0 n) by apply Hperm.
  assert (Hnd : NoDup v) by (rewrite Hv; apply NoDup_seq).
  rewrite length_fmap.
  rewrite length_filter_iterators.
  rewrite with_iterators_fst. fold n. rewrite <- Hv.
  rewrite filter_not_in_take by done. rewrite length_drop, Hv, length_seq.
  lia.
Qed.

Lemma filter_candidates_randomly_id shuffle k cs :
  length cs ≤ k → filter_candidates_randomly shuffle k cs = cs.
Proof.
  intros Hk. unfold filter_candidates_randomly.
  rewrite Nat.min_l, Nat.sub_diag by done. cbn.
  apply with_iterators_snd.
Qed.

End random.


(** ** The claims about the edge quality inspector and the quality pass *)

Lemma line_vertices_present v :
  bool_decide (is_Some (line_vertices !! v)) = true →
  is_Some (line_vertices !! v).
Proof. apply bool_decide_eq_true_1. Qed.

Lemma line_candidates_in_map map :
  vertices map = line_vertices → candidates_in_map map line_candidates.
Proof.
  intros Hv c Hc _. rewrite Hv. unfold line_candidates in Hc.
  repeat (apply elem_of_cons in Hc as [->|Hc]);
    [..|by apply elem_of_nil in Hc];
    split; apply line_vertices_present; vm_compute; reflexivity.
Qed.

(** Removing an edge that does not point to [b] changes nothing about the
    loop-closure edges from [a] to [b]. *)
Lemma lc_edge_from_to_delete map a b id e id' e' :
  edges map !! id = Some e → to e ≠ b →
  lc_edge_from_to
    {| vertices := vertices map; edges := delete id (edges map) |} a b id' e'
  ↔ lc_edge_from_to map a b id' e'.
Proof.
  intros He Hto. unfold lc_edge_from_to. cbn.
  destruct (decide (id' = id)) as [->|Hne].
  - rewrite lookup_delete_eq. split; [by intros [? _]|].
    intros (He' & _ & _ & Hb). congruence.
  - by rewrite lookup_delete_ne.
Qed.

(** C8. When [A] is a vertex of the map, [hasGoodLoopClosureEdgeFromAToB]
    returns, and its answer is [true] exactly if some loop-closure edge from
    [A] to [B] has a switch variable [>=] the threshold. An edge whose
    [to()] is not [B] has no influence: with it taken out of the map the
    call gives the same answer and the same deletion set. *)
Theorem hasGoodLoopClosureEdgeFromAToB_iff config map a b del :
  is_Some (vertices map !! a) →
  ∃ has_good del',
    hasGoodLoopClosureEdgeFromAToB config map a b del
      = Some (has_good, del') ∧
    (has_good = true ↔
       ∃ id e, edges map !! id = Some e ∧ edge_type e = kLoopClosure ∧
               from e = a ∧ to e = b ∧
               PrimFloat.leb (constraint_min_switch_variable_value config)
                             (getSwitchVariable e) = true) ∧
    (∀ id e, edges map !! id = Some e → to e ≠ b →
       hasGoodLoopClosureEdgeFromAToB config
         {| vertices := vertices map; edges := delete id (edges map) |}
         a b del
       = Some (has_good, del')).
Proof.
  intros Ha.
  destruct (hasGoodLoopClosureEdgeFromAToB_spec config map a b del Ha)
    as (hg & del' & Hrun & Hhg & Hdel).
  exists hg, del'. split; [done|]. split.
  - rewrite Hhg. unfold lc_edge_from_to, good_edge. naive_solver.
  - intros id e He Hto.
    destruct (hasGoodLoopClosureEdgeFromAToB_spec config
                {| vertices := vertices map; edges := delete id (edges map) |}
                a b del Ha)
      as (hg2 & del2 & -> & Hhg2 & Hdel2).
    f_equal. f_equal.
    + apply Bool.eq_true_iff_eq. rewrite Hhg, Hhg2.
      by setoid_rewrite (lc_edge_from_to_delete map a b id e).
    + apply set_eq. intros id'. rewrite Hdel, Hdel2.
      by setoid_rewrite (lc_edge_from_to_delete map a b id e).
Qed.

Lemma hasGoodLoopClosureEdgeFromAToB_iff_witness :
  is_Some (vertices loop_map !! 3%N) ∧
  ∃ has_good del',
    hasGoodLoopClosureEdgeFromAToB (example_config false true 3 "distance")
      loop_map 3 14 ∅ = Some (has_good, del') ∧
    (has_good = true ↔
       ∃ id e, edges loop_map !! id = Some e ∧ edge_type e = kLoopClosure ∧
               from e = 3%N ∧ to e = 14%N ∧
               PrimFloat.leb 0.5 (getSwitchVariable e) = true) ∧
    (∀ id e, edges loop_map !! id = Some e → to e ≠ 14%N →
       hasGoodLoopClosureEdgeFromAToB (example_config false true 3 "distance")
         {| vertices := vertices loop_map;
            edges := delete id (edges loop_map) |} 3 14 ∅
       = Some (has_good, del')).
Proof.
  assert (H : is_Some (vertices loop_map !! 3%N)).
  { apply line_vertices_present. vm_compute. reflexivity. }
  split; [exact H|].
  exact (hasGoodLoopClosureEdgeFromAToB_iff
           (example_config false true 3 "distance") loop_map 3 14 ∅ H).
Defined.

(** C3. With [recompute_all_constraints] false, a valid candidate (A,B) for
    which the map holds a loop-closure edge from A to B, or from B to A,
    with a switch variable [>=] the threshold is not in the collection the
    quality pass leaves. The pass returns whenever the map holds the
    vertices of the valid candidates. *)
Theorem good_edge_suppresses_candidate config map cs c id e :
  candidates_in_map map cs →
  recompute_all_constraints config = false →
  isValid c = true →
  lc_edge_between map c id e →
  PrimFloat.leb (constraint_min_switch_variable_value config)
                (getSwitchVariable e) = true →
  ∃ map' kept,
    filter_candidates_based_on_quality config map cs = Some (map', kept) ∧
    c ∉ kept.
Proof.
  intros Hin Hall Hvalid Hbetween Hgood.
  destruct (filter_candidates_based_on_quality_spec config map cs Hin)
    as (map' & kept & Hrun & _ & Hkept & _).
  exists map', kept. split; [done|].
  intros (_ & _ & [?|Hno])%Hkept; [congruence|].
  apply Hno. by exists id, e.
Qed.

Lemma good_edge_suppresses_candidate_witness :
  ∃ map' kept,
    filter_candidates_based_on_quality (example_config false true 3 "distance")
      loop_map line_candidates = Some (map', kept) ∧
    candidate 2 12 ∉ kept.
Proof.
  apply (good_edge_suppresses_candidate
           (example_config false true 3 "distance") loop_map line_candidates
           (candidate 2 12) 101%N (lc_edge 12 2 0.75)).
  - by apply line_candidates_in_map.
  - reflexivity.
  - reflexivity.
  - right. unfold lc_edge_from_to. split_and!; reflexivity.
  - reflexivity.
Defined.

(** C4, as amended. With [recompute_invalid_constraints] true and
    [recompute_all_constraints] false the quality pass adds no edge and
    touches no vertex; an edge it removes is a loop-closure edge between the
    two vertices of a valid candidate that fails the test
    [switchVariable >= threshold]: its switch variable is below the
    threshold, or the comparison involves a NaN. Every edge passing the test
    remains. *)
Theorem recompute_invalid_removes_only_failing_edges config map cs :
  candidates_in_map map cs →
  recompute_invalid_constraints config = true →
  recompute_all_constraints config = false →
  ∃ map' kept,
    filter_candidates_based_on_quality config map cs = Some (map', kept) ∧
    vertices map' = vertices map ∧
    (∀ id e, edges map' !! id = Some e → edges map !! id = Some e) ∧
    (∀ id e, edges map !! id = Some e → edges map' !! id = None →
       edge_type e = kLoopClosure ∧
       PrimFloat.leb (constraint_min_switch_variable_value config)
                     (getSwitchVariable e) = false ∧
       (PrimFloat.ltb (getSwitchVariable e)
                      (constraint_min_switch_variable_value config) = true ∨
        PrimFloat.is_nan (getSwitchVariable e) = true ∨
        PrimFloat.is_nan (constraint_min_switch_variable_value config)
          = true) ∧
       ∃ c, c ∈ cs ∧ isValid c = true ∧ lc_edge_between map c id e) ∧
    (∀ id e, edges map !! id = Some e →
       PrimFloat.leb (constraint_min_switch_variable_value config)
                     (getSwitchVariable e) = true →
       edges map' !! id = Some e).
Proof.
  intros Hin Hinv Hall.
  destruct (filter_candidates_based_on_quality_spec config map cs Hin)
    as (map' & kept & Hrun & _ & _ & Hv & Hsub & Hedges).
  assert (Hmark : ∀ e, marked_for_deletion config e = true →
            PrimFloat.leb (constraint_min_switch_variable_value config)
                          (getSwitchVariable e) = false).
  { intros e. unfold marked_for_deletion, good_edge. rewrite Hall, Hinv.
    by destruct (PrimFloat.leb _ _). }
  exists map', kept. split; [done|]. split; [done|]. split; [done|]. split.
  - intros id e He Hgone.
    destruct (Hedges id e He) as [?|(_ & _ & Hm & c & ? & ? & Hb)];
      [congruence|].
    split_and!.
    + by destruct Hb as [(_ & ? & _)|(_ & ? & _)].
    + by apply Hmark.
    + by apply not_geb_cases, Hmark.
    + by exists c.
  - intros id e He Hgood.
    destruct (Hedges id e He) as [?|(_ & _ & Hm%Hmark & _)]; [done|].
    congruence.
Qed.

Lemma recompute_invalid_removes_only_failing_edges_witness :
  ∃ map' kept,
    filter_candidates_based_on_quality (example_config false true 3 "distance")
      loop_map line_candidates = Some (map', kept) ∧
    vertices map' = vertices loop_map ∧
    (∀ id e, edges map' !! id = Some e → edges loop_map !! id = Some e) ∧
    (∀ id e, edges loop_map !! id = Some e → edges map' !! id = None →
       edge_type e = kLoopClosure ∧
       PrimFloat.leb 0.5 (getSwitchVariable e) = false ∧
       (PrimFloat.ltb (getSwitchVariable e) 0.5 = true ∨
        PrimFloat.is_nan (getSwitchVariable e) = true ∨
        PrimFloat.is_nan 0.5 = true) ∧
       ∃ c, c ∈ line_candidates ∧ isValid c = true ∧
            lc_edge_between loop_map c id e) ∧
    (∀ id e, edges loop_map !! id = Some e →
       PrimFloat.leb 0.5 (getSwitchVariable e) = true →
       edges map' !! id = Some e).
Proof.
  apply (recompute_invalid_removes_only_failing_edges
           (example_config false true 3 "distance") loop_map line_candidates).
  - by apply line_candidates_in_map.
  - reflexivity.
  - reflexivity.
Defined.

(** C4 as stated fails: edge 100 of [loop_map] joins the vertices of the
    valid candidate (1,11) and has a NaN switch variable; the pass removes
    it although it is not below the threshold. *)
Lemma removed_edge_not_below_threshold :
  ¬ (∀ config map cs map' kept,
       recompute_invalid_constraints config = true →
       recompute_all_constraints config = false →
       filter_candidates_based_on_quality config map cs = Some (map', kept) →
       ∀ id e, edges map !! id = Some e → edges map' !! id = None →
         PrimFloat.ltb (getSwitchVariable e)
                       (constraint_min_switch_variable_value config) = true).
Proof.
  intros H.
  destruct (filter_candidates_based_on_quality
              (example_config false true 3 "distance") loop_map
              line_candidates) as [[map' kept]|] eqn:Hrun;
    [|by vm_compute in Hrun].
  assert (Hgone : edges map' !! 100%N = None).
  { vm_compute in Hrun. injection Hrun as <- _. vm_compute. reflexivity. }
  specialize (H (example_config false true 3 "distance") loop_map
                line_candidates map' kept eq_refl eq_refl Hrun
                100%N (lc_edge 1 11 nan) eq_refl Hgone).
  vm_compute in H. discriminate H.
Qed.

(** ** The claims about the strategy pass *)

Lemma strategy_distance shuffle config map cs :
  (0 ≤ max_number_of_candidates config)%Z →
  filter_strategy config = "distance" →
  filter_candidates_based_on_strategy shuffle config map cs
  = match distance_loop (Z.to_nat (max_number_of_candidates config))
            (min_distance_to_next_candidate config) map [] cs with
    | None => None
    | Some (out, _) => Some (out, [])
    end.
Proof.
  intros Hcap Hs. unfold filter_candidates_based_on_strategy.
  rewrite bool_decide_eq_false_2 by lia. rewrite Hs. cbn.
  unfold filter_candidates_based_on_distance.
  by destruct (distance_loop _ _ _ _ _) as [[??]|].
Qed.

Lemma strategy_random shuffle config map cs :
  (0 ≤ max_number_of_candidates config)%Z →
  filter_strategy config = "random" →
  filter_candidates_based_on_strategy shuffle config map cs
  = Some (filter_candidates_randomly shuffle
            (Z.to_nat (max_number_of_candidates config)) cs, []).
Proof.
  intros Hcap Hs. unfold filter_candidates_based_on_strategy.
  rewrite bool_decide_eq_false_2 by lia. by rewrite Hs.
Qed.

(** C1, as amended. Under the distance strategy with a cap [>= 0], the
    candidates the pass accepted, which are the first [max(cap, 1)] of the
    returned collection, are pairwise farther apart than
    [min_distance_to_next_candidate]; so is the whole collection when it has
    no more than [max(cap, 1)] candidates. Nothing is said of the candidates
    behind the one on which the cap was reached. *)
Theorem distance_strategy_accepted_apart shuffle config map cs out log :
  filter_strategy config = "distance" →
  (0 ≤ max_number_of_candidates config)%Z →
  filter_candidates_based_on_strategy shuffle config map cs
    = Some (out, log) →
  pairwise_apart (min_distance_to_next_candidate config) map
    (take (Z.to_nat (Z.max 1 (max_number_of_candidates config))) out) ∧
  ((Z.of_nat (length out) ≤ Z.max 1 (max_number_of_candidates config))%Z →
   pairwise_apart (min_distance_to_next_candidate config) map out).
Proof.
  intros Hs Hcap Hrun. rewrite strategy_distance in Hrun by done.
  set (cap := Z.to_nat (max_number_of_candidates config)) in *.
  set (d := min_distance_to_next_candidate config) in *.
  assert (Hcap' : Z.to_nat (Z.max 1 (max_number_of_candidates config))
                  = Nat.max 1 cap) by (unfold cap; lia).
  rewrite Hcap'.
  assert (Htake : pairwise_apart d map (take (Nat.max 1 cap) out)).
  { destruct (distance_loop cap d map [] cs) as [[out' final]|] eqn:Hloop;
      [|done].
    injection Hrun as -> _.
    apply distance_loop_inv in Hloop
      as (acc & unex & ps & -> & -> & HF & _ & _ & Hap & Hbrk & Hlen).
    cbn in Hlen, Hbrk. rewrite Nat.sub_0_r in Hlen.
    pose proof (Forall2_length _ _ _ HF) as Hlen'.
    assert (Hacc : pairwise_apart d map acc).
    { eapply positions_apart_pairwise; [done|].
      apply Hap, positions_apart_nil. }
    destruct Hbrk as [->|Hbrk].
    - rewrite app_nil_r. by apply pairwise_apart_take.
    - destruct (decide (cap = 0)) as [Hz|Hnz].
      + apply pairwise_apart_short. rewrite length_take. lia.
      + rewrite take_app_le by lia. by apply pairwise_apart_take. }
  split; [done|]. intros Hshort.
  rewrite take_ge in Htake by lia. done.
Qed.

Lemma distance_strategy_accepted_apart_witness :
  pairwise_apart 2 line_map
    (take (Z.to_nat (Z.max 1 3))
       [candidate 1 11; candidate 3 13; candidate 5 15]) ∧
  ((Z.of_nat (length [candidate 1 11; candidate 3 13; candidate 5 15])
    ≤ Z.max 1 3)%Z →
   pairwise_apart 2 line_map
     [candidate 1 11; candidate 3 13; candidate 5 15]).
Proof.
  apply (distance_strategy_accepted_apart reversing_shuffle
           (example_config false false 3 "distance") line_map
           line_candidates _ []).
  - reflexivity.
  - vm_compute. discriminate.
  - vm_compute. reflexivity.
Defined.

(** C1 as stated fails: with a cap of 1 the pass accepts the candidate at
    (0,0,0) and stops, so the candidate at (1,0,0) stays in the collection
    although it is not farther than 2 from the first. *)
Lemma retained_candidates_not_apart :
  ¬ (∀ shuffle config map cs out log,
       filter_strategy config = "distance" →
       filter_candidates_based_on_strategy shuffle config map cs
         = Some (out, log) →
       pairwise_apart (min_distance_to_next_candidate config) map out).
Proof.
  intros H.
  specialize (H reversing_shuffle (example_config false false 1 "distance")
                line_map [candidate 1 11; candidate 2 12]
                [candidate 1 11; candidate 2 12] [] eq_refl).
  assert (Hrun : filter_candidates_based_on_strategy reversing_shuffle
                   (example_config false false 1 "distance") line_map
                   [candidate 1 11; candidate 2 12]
                 = Some ([candidate 1 11; candidate 2 12], []))
    by (vm_compute; reflexivity).
  specialize (H Hrun 0 1 (candidate 1 11) (candidate 2 12)
                (vec 0 0 0) (vec 1 0 0)).
  assert (Hfar : farther_than 2 (vec 1 0 0) (vec 0 0 0) = true).
  { apply H; [lia|reflexivity..]. }
  vm_compute in Hfar. discriminate Hfar.
Qed.

(** C6. Under the distance strategy with a positive cap: if the loop, run on
    a first part of the collection, leaves with the accepted count at the
    cap, then run on the whole collection it leaves at the same point, with
    the same accepted positions, and whatever follows that first part is
    returned in place and unchanged. The rest is not examined at all: it may
    even name vertices the map does not have. *)
Theorem distance_strategy_stops_at_cap shuffle config map examined rest out
    final :
  filter_strategy config = "distance" →
  (0 < max_number_of_candidates config)%Z →
  distance_loop (Z.to_nat (max_number_of_candidates config))
    (min_distance_to_next_candidate config) map [] examined
    = Some (out, final) →
  Z.to_nat (max_number_of_candidates config) ≤ length final →
  distance_loop (Z.to_nat (max_number_of_candidates config))
    (min_distance_to_next_candidate config) map [] (examined ++ rest)
    = Some (out ++ rest, final) ∧
  filter_candidates_based_on_strategy shuffle config map (examined ++ rest)
    = Some (out ++ rest, []).
Proof.
  intros Hs Hcap Hrun Hfull.
  assert (Hall : distance_loop (Z.to_nat (max_number_of_candidates config))
                   (min_distance_to_next_candidate config) map []
                   (examined ++ rest) = Some (out ++ rest, final)).
  { apply distance_loop_app; [done|cbn; lia|done]. }
  split; [done|]. rewrite strategy_distance by (done || lia).
  by rewrite Hall.
Qed.

Lemma distance_strategy_stops_at_cap_witness :
  distance_loop (Z.to_nat 2) 2 line_map []
    ([candidate 1 11; candidate 2 12; candidate 3 13]
     ++ [candidate 4 14; candidate 99 99])
    = Some ([candidate 1 11; candidate 3 13]
            ++ [candidate 4 14; candidate 99 99],
            [vec 0 0 0; vec 5 0 0]) ∧
  filter_candidates_based_on_strategy reversing_shuffle
    (example_config false false 2 "distance") line_map
    ([candidate 1 11; candidate 2 12; candidate 3 13]
     ++ [candidate 4 14; candidate 99 99])
    = Some ([candidate 1 11; candidate 3 13]
            ++ [candidate 4 14; candidate 99 99], []).
Proof.
  apply (distance_strategy_stops_at_cap reversing_shuffle
           (example_config false false 2 "distance") line_map
           [candidate 1 11; candidate 2 12; candidate 3 13]
           [candidate 4 14; candidate 99 99]
           [candidate 1 11; candidate 3 13] [vec 0 0 0; vec 5 0 0]).
  - reflexivity.
  - vm_compute. reflexivity.
  - vm_compute. reflexivity.
  - vm_compute. lia.
Defined.

Lemma reversing_shuffle_permutes : shuffle_permutes reversing_shuffle.
Proof. intros v. apply reverse_Permutation. Qed.

(** C5. Under the random strategy with a cap [k >= 0], for every outcome of
    the shuffle that is a permutation of the iterators: the pass returns; if
    [k] is below the size of the collection the result has exactly [k]
    candidates; if [k] is at least the size the collection is unchanged; the
    result is the input with some candidates taken out, so every survivor
    is an original candidate. *)
Theorem random_strategy_cap shuffle config map cs :
  filter_strategy config = "random" →
  (0 ≤ max_number_of_candidates config)%Z →
  shuffle_permutes shuffle →
  ∃ out,
    filter_candidates_based_on_strategy shuffle config map cs
      = Some (out, []) ∧
    ((max_number_of_candidates config < Z.of_nat (length cs))%Z →
     Z.of_nat (length out) = max_number_of_candidates config) ∧
    ((Z.of_nat (length cs) ≤ max_number_of_candidates config)%Z →
     out = cs) ∧
    out `sublist_of` cs ∧
    (∀ c, c ∈ out → c ∈ cs).
Proof.
  intros Hs Hcap Hperm. rewrite strategy_random by done.
  eexists. split; [done|]. split_and!.
  - intros Hlt. rewrite filter_candidates_randomly_length by done. lia.
  - intros Hge. apply filter_candidates_randomly_id. lia.
  - apply filter_candidates_randomly_sublist.
  - intros c Hc. eapply elem_of_sublist; [done|].
    apply filter_candidates_randomly_sublist.
Qed.

Lemma random_strategy_cap_witness :
  ∃ out,
    filter_candidates_based_on_strategy reversing_shuffle
      (example_config false false 2 "random") line_map line_candidates
      = Some (out, []) ∧
    ((2 < Z.of_nat (length line_candidates))%Z →
     Z.of_nat (length out) = 2%Z) ∧
    ((Z.of_nat (length line_candidates) ≤ 2)%Z → out = line_candidates) ∧
    out `sublist_of` line_candidates ∧
    (∀ c, c ∈ out → c ∈ line_candidates).
Proof.
  apply (random_strategy_cap reversing_shuffle
           (example_config false false 2 "random") line_map line_candidates).
  - reflexivity.
  - vm_compute. discriminate.
  - exact reversing_shuffle_permutes.
Defined.

(** C7. With a cap of 0 and a non-empty collection whose first candidate
    names a vertex of the map, the distance strategy accepts that candidate
    (the list of accepted positions is empty, so the test passes), finds the
    cap reached and leaves before any erase: the whole collection is
    returned. The random strategy, under the same configuration otherwise,
    empties the collection. *)
Theorem zero_cap_distance_keeps_random_empties shuffle config map c rest :
  max_number_of_candidates config = 0%Z →
  is_Some (vertices map !! vertex_A c) →
  shuffle_permutes shuffle →
  (∃ p, position_of map c = Some p ∧
        distance_loop 0 (min_distance_to_next_candidate config) map []
          (c :: rest) = Some (c :: rest, [p])) ∧
  filter_candidates_based_on_strategy shuffle
    (with_strategy "distance" config) map (c :: rest)
    = Some (c :: rest, []) ∧
  filter_candidates_based_on_strategy shuffle
    (with_strategy "random" config) map (c :: rest)
    = Some ([], []).
Proof.
  intros Hcap [v Hv] Hperm.
  assert (Hloop : distance_loop 0 (min_distance_to_next_candidate config)
                    map [] (c :: rest)
                  = Some (c :: rest, [get_p_M_I v])).
  { cbn [distance_loop]. unfold getVertex. unfold vertex_A in Hv.
    by rewrite Hv. }
  split_and!.
  - exists (get_p_M_I v). split; [|done].
    unfold position_of, getVertex. by rewrite Hv.
  - rewrite strategy_distance by (cbn; done || lia).
    cbn [with_strategy max_number_of_candidates
         min_distance_to_next_candidate].
    rewrite Hcap. change (Z.to_nat 0) with 0. by rewrite Hloop.
  - rewrite strategy_random by (cbn; done || lia).
    cbn [with_strategy max_number_of_candidates].
    rewrite Hcap. change (Z.to_nat 0) with 0. f_equal. f_equal.
    apply length_zero_iff_nil.
    rewrite filter_candidates_randomly_length by done. lia.
Qed.

Lemma zero_cap_distance_keeps_random_empties_witness :
  (∃ p, position_of line_map (candidate 1 11) = Some p ∧
        distance_loop 0 2 line_map []
          (candidate 1 11 :: [candidate 2 12; candidate 99 99])
        = Some (candidate 1 11 :: [candidate 2 12; candidate 99 99], [p])) ∧
  filter_candidates_based_on_strategy reversing_shuffle
    (with_strategy "distance" (example_config false false 0 "distance"))
    line_map (candidate 1 11 :: [candidate 2 12; candidate 99 99])
  = Some (candidate 1 11 :: [candidate 2 12; candidate 99 99], []) ∧
  filter_candidates_based_on_strategy reversing_shuffle
    (with_strategy "random" (example_config false false 0 "distance"))
    line_map (candidate 1 11 :: [candidate 2 12; candidate 99 99])
  = Some ([], []).
Proof.
  apply (zero_cap_distance_keeps_random_empties reversing_shuffle
           (example_config false false 0 "distance") line_map
           (candidate 1 11) [candidate 2 12; candidate 99 99]).
  - reflexivity.
  - apply line_vertices_present. vm_compute. reflexivity.
  - exact reversing_shuffle_permutes.
Defined.

(** C9. With a negative cap the strategy pass does nothing, whatever the
    strategy named: the collection is returned as it came, and nothing is
    logged. *)
Theorem negative_cap_disables_strategy shuffle config map cs :
  (max_number_of_candidates config < 0)%Z →
  filter_candidates_based_on_strategy shuffle config map cs = Some (cs, []).
Proof.
  intros Hneg. unfold filter_candidates_based_on_strategy.
  by rewrite bool_decide_eq_true_2.
Qed.

Lemma negative_cap_disables_strategy_witness :
  filter_candidates_based_on_strategy reversing_shuffle
    (example_config false false (-1) "random") line_map
    [candidate 1 11; candidate 99 99]
  = Some ([candidate 1 11; candidate 99 99], []).
Proof.
  apply (negative_cap_disables_strategy reversing_shuffle
           (example_config false false (-1) "random") line_map
           [candidate 1 11; candidate 99 99]).
  vm_compute. reflexivity.
Defined.

(** C10. With a cap [>= 0] and a strategy that is neither ["random"] nor
    ["distance"], the strategy pass writes one error line and returns the
    collection as it came. The whole selection then returns [true] with the
    map and the collection the quality pass left, whenever the quality pass
    returns, which it does when the map holds the vertices of the valid
    candidates. *)
Theorem unknown_strategy_passes_through shuffle config map cs :
  (0 ≤ max_number_of_candidates config)%Z →
  filter_strategy config ≠ "random" →
  filter_strategy config ≠ "distance" →
  candidates_in_map map cs →
  filter_candidates_based_on_strategy shuffle config map cs
    = Some (cs, [String.append "Unknown filter strategy "
                   (filter_strategy config)]) ∧
  ∃ map' kept,
    filter_candidates_based_on_quality config map cs = Some (map', kept) ∧
    selectAlignmentCandidatePairs shuffle config map cs
    = Some {| returned := true;
              selected_map := map';
              selected_pairs := kept;
              error_log := [String.append "Unknown filter strategy "
                              (filter_strategy config)] |}.
Proof.
  intros Hcap Hr Hd Hin.
  assert (Hpass : ∀ map0 cs0,
            filter_candidates_based_on_strategy shuffle config map0 cs0
            = Some (cs0, [String.append "Unknown filter strategy "
                            (filter_strategy config)])).
  { intros map0 cs0. unfold filter_candidates_based_on_strategy.
    rewrite bool_decide_eq_false_2 by lia.
    by rewrite !bool_decide_eq_false_2 by done. }
  split; [done|].
  destruct (filter_candidates_based_on_quality_spec config map cs Hin)
    as (map' & kept & Hq & _).
  exists map', kept. split; [done|].
  unfold selectAlignmentCandidatePairs. by rewrite Hq, Hpass.
Qed.

Lemma unknown_strategy_passes_through_witness :
  filter_candidates_based_on_strategy reversing_shuffle
    (example_config false true 3 "nearest") loop_map line_candidates
    = Some (line_candidates, ["Unknown filter strategy nearest"]) ∧
  ∃ map' kept,
    filter_candidates_based_on_quality (example_config false true 3 "nearest")
      loop_map line_candidates = Some (map', kept) ∧
    selectAlignmentCandidatePairs reversing_shuffle
      (example_config false true 3 "nearest") loop_map line_candidates
    = Some {| returned := true;
              selected_map := map';
              selected_pairs := kept;
              error_log := ["Unknown filter strategy nearest"] |}.
Proof.
  apply (unknown_strategy_passes_through reversing_shuffle
           (example_config false true 3 "nearest") loop_map line_candidates).
  - vm_compute. discriminate.
  - vm_compute. discriminate.
  - vm_compute. discriminate.
  - by apply line_candidates_in_map.
Defined.

(** ** The end-to-end example *)

(** The map has no loop-closure edge. *)
Lemma getOutgoingOfType_no_lc map v :
  (∀ id e, edges map !! id = Some e → edge_type e ≠ kLoopClosure) →
  is_Some (vertices map !! v) →
  getOutgoingOfType map kLoopClosure v = Some [].
Proof.
  intros Hno Hv.
  destruct (getOutgoingOfType_is_Some map kLoopClosure v Hv) as [l Hl].
  rewrite Hl. destruct l as [|id l]; [done|].
  assert (Hid : id ∈ id :: l) by (by left).
  apply (elem_of_getOutgoingOfType map _ _ _ _ Hl) in Hid
    as (e & He & _ & Ht).
  by destruct (Hno id e He).
Qed.

(** Without loop-closure edges the quality pass drops the invalid candidates
    only and leaves the map alone, whatever the recompute flags. *)
Lemma quality_loop_no_lc config map cs del :
  (∀ id e, edges map !! id = Some e → edge_type e ≠ kLoopClosure) →
  candidates_in_map map cs →
  quality_loop config map cs del
  = Some (filter (λ c, isValid c = true) cs, del).
Proof.
  intros Hno. induction cs as [|c cs IH]; intros Hin; [done|].
  pose proof (candidates_in_map_cons _ _ _ Hin) as Hin'.
  cbn [quality_loop]. rewrite filter_cons.
  destruct (isValid c) eqn:Hvalid; cbn [negb].
  - destruct (Hin c) as [Ha Hb]; [by left|done|].
    unfold vertex_A, vertex_B in Ha, Hb.
    unfold has_good_lc_edge_either, hasGoodLoopClosureEdgeFromAToB.
    rewrite !getOutgoingOfType_no_lc by done. cbn.
    rewrite IH by done. by rewrite decide_True.
  - rewrite IH by done. by rewrite decide_False.
Qed.

Lemma filter_candidates_based_on_quality_no_lc config map cs :
  (∀ id e, edges map !! id = Some e → edge_type e ≠ kLoopClosure) →
  candidates_in_map map cs →
  filter_candidates_based_on_quality config map cs
  = Some (map, filter (λ c, isValid c = true) cs).
Proof.
  intros Hno Hin. unfold filter_candidates_based_on_quality.
  rewrite quality_loop_no_lc by done. rewrite elements_empty. cbn.
  by destruct (_ || _).
Qed.

Lemma position_of_Some map c p :
  position_of map c = Some p →
  ∃ v, getVertex map (closest_vertex_id (candidate_A c)) = Some v ∧
       get_p_M_I v = p.
Proof.
  unfold position_of, vertex_A.
  destruct (getVertex map _) as [v|]; [|done].
  intros [= <-]. by exists v.
Qed.

(** C2. Five valid candidates whose vertices are in a map without
    loop-closure edges, the [candidate_A] vertices lying at (0,0,0),
    (1,0,0), (5,0,0), (5,1,0), (10,0,0) in this order; strategy
    ["distance"], minimum distance 2.0, cap 3. The selection returns [true],
    leaves the map as it is and retains the candidates at (0,0,0), (5,0,0)
    and (10,0,0), in this order. *)
Theorem end_to_end_distance_example shuffle config map c0 c1 c2 c3 c4 :
  filter_strategy config = "distance" →
  min_distance_to_next_candidate config = 2%float →
  max_number_of_candidates config = 3%Z →
  (∀ id e, edges map !! id = Some e → edge_type e ≠ kLoopClosure) →
  candidates_in_map map [c0; c1; c2; c3; c4] →
  Forall (λ c, isValid c = true) [c0; c1; c2; c3; c4] →
  position_of map c0 = Some (vec 0 0 0) →
  position_of map c1 = Some (vec 1 0 0) →
  position_of map c2 = Some (vec 5 0 0) →
  position_of map c3 = Some (vec 5 1 0) →
  position_of map c4 = Some (vec 10 0 0) →
  selectAlignmentCandidatePairs shuffle config map [c0; c1; c2; c3; c4]
  = Some {| returned := true;
            selected_map := map;
            selected_pairs := [c0; c2; c4];
            error_log := [] |}.
Proof.
  intros Hs Hd Hcap Hno Hin Hvalid
    (v0 & Hv0 & Hp0)%position_of_Some (v1 & Hv1 & Hp1)%position_of_Some
    (v2 & Hv2 & Hp2)%position_of_Some (v3 & Hv3 & Hp3)%position_of_Some
    (v4 & Hv4 & Hp4)%position_of_Some.
  unfold selectAlignmentCandidatePairs.
  rewrite filter_candidates_based_on_quality_no_lc by done.
  rewrite filter_all by (by apply Forall_forall).
  rewrite strategy_distance by (done || lia).
  rewrite Hcap, Hd. change (Z.to_nat 3) with 3.
  cbn [distance_loop]. rewrite Hv0, Hp0. cbn [forallb app length Nat.leb].
  rewrite Hv1, Hp1.
  change (forallb (farther_than 2 (vec 1 0 0)) [vec 0 0 0]) with false.
  cbn iota. rewrite Hv2, Hp2.
  change (forallb (farther_than 2 (vec 5 0 0)) [vec 0 0 0]) with true.
  cbn [app length Nat.leb]. rewrite Hv3, Hp3.
  change (forallb (farther_than 2 (vec 5 1 0)) [vec 0 0 0; vec 5 0 0])
    with false.
  cbn iota. rewrite Hv4, Hp4.
  change (forallb (farther_than 2 (vec 10 0 0)) [vec 0 0 0; vec 5 0 0])
    with true.
  reflexivity.
Qed.

Lemma end_to_end_distance_example_witness :
  selectAlignmentCandidatePairs reversing_shuffle
    (example_config false true 3 "distance") line_map
    [candidate 1 11; candidate 2 12; candidate 3 13; candidate 4 14;
     candidate 5 15]
  = Some {| returned := true;
            selected_map := line_map;
            selected_pairs :=
              [candidate 1 11; candidate 3 13; candidate 5 15];
            error_log := [] |}.
Proof.
  apply (end_to_end_distance_example reversing_shuffle
           (example_config false true 3 "distance") line_map
           (candidate 1 11) (candidate 2 12) (candidate 3 13)
           (candidate 4 14) (candidate 5 15)).
  - reflexivity.
  - reflexivity.
  - reflexivity.
  - intros id e He. vm_compute in He. discriminate He.
  - by apply (line_candidates_in_map line_map).
  - repeat constructor.
  - vm_compute. reflexivity.
  - vm_compute. reflexivity.
  - vm_compute. reflexivity.
  - vm_compute. reflexivity.
  - vm_compute. reflexivity.
Defined.

(** * Further properties of the selection *)

(** ** The inspector and the quality pass, exactly *)
Section quality_exact.
Context (config : SelectionConfig) (map : VIMap).

Lemma hasGoodLoopClosureEdgeFromAToB_None a b del :
  vertices map !! a = None →
  hasGoodLoopClosureEdgeFromAToB config map a b del = None.
Proof.
  intros Ha. unfold hasGoodLoopClosureEdgeFromAToB, getOutgoingOfType,
    getVertex. by rewrite Ha.
Qed.

Lemma hasGoodLoopClosureEdgeFromAToB_Some_inv a b del has_good del' :
  hasGoodLoopClosureEdgeFromAToB config map a b del = Some (has_good, del') →
  is_Some (vertices map !! a) ∧
  (has_good = true ↔
     ∃ id e, lc_edge_from_to map a b id e ∧ good_edge config e = true) ∧
  (∀ id, id ∈ del' ↔
     id ∈ del ∨
     ∃ e, lc_edge_from_to map a b id e ∧ marked_for_deletion config e = true).
Proof.
  intros Hrun.
  assert (Ha : is_Some (vertices map !! a)).
  { destruct (vertices map !! a) eqn:Hv; [by eexists|].
    by rewrite hasGoodLoopClosureEdgeFromAToB_None in Hrun. }
  split; [done|].
  destruct (hasGoodLoopClosureEdgeFromAToB_spec config map a b del Ha)
    as (hg & d' & Hrun' & Hhg & Hdel).
  rewrite Hrun in Hrun'. by injection Hrun' as -> ->.
Qed.

Lemma has_good_lc_edge_either_is_Some a b del :
  is_Some (has_good_lc_edge_either config map a b del) ↔
  is_Some (vertices map !! a) ∧
  ((∃ id e, lc_edge_from_to map a b id e ∧ good_edge config e = true) ∨
   is_Some (vertices map !! b)).
Proof.
  unfold has_good_lc_edge_either. split.
  - intros [r Hr].
    destruct (hasGoodLoopClosureEdgeFromAToB config map a b del)
      as [[hg1 del1]|] eqn:H1; [|done].
    apply hasGoodLoopClosureEdgeFromAToB_Some_inv in H1 as (Ha & Hhg1 & _).
    split; [done|]. destruct hg1; [left; by apply Hhg1|right].
    destruct r as [hg2 del2].
    by apply hasGoodLoopClosureEdgeFromAToB_Some_inv in Hr as (Hb & _).
  - intros [Ha Hor].
    destruct (hasGoodLoopClosureEdgeFromAToB_spec config map a b del Ha)
      as (hg1 & del1 & -> & Hhg1 & _).
    destruct hg1; [by eexists|].
    destruct Hor as [Hgood|Hb].
    + by apply Hhg1 in Hgood.
    + destruct (hasGoodLoopClosureEdgeFromAToB_spec config map b a del1 Hb)
        as (hg2 & del2 & -> & _). by eexists.
Qed.

(** The answer of the two calls joined by [||], and the exact deletion set
    they leave. *)
Lemma has_good_lc_edge_either_Some_inv a b del has_good del' :
  has_good_lc_edge_either config map a b del = Some (has_good, del') →
  (has_good = true ↔
     ∃ id e, (lc_edge_from_to map a b id e ∨ lc_edge_from_to map b a id e)
             ∧ good_edge config e = true) ∧
  (∀ id, id ∈ del' ↔
     id ∈ del ∨
     ∃ e, marked_for_deletion config e = true ∧
          (lc_edge_from_to map a b id e ∨
           (lc_edge_from_to map b a id e ∧
            ¬ ∃ id' e', lc_edge_from_to map a b id' e' ∧
                        good_edge config e' = true))).
Proof.
  unfold has_good_lc_edge_either. intros Hrun.
  destruct (hasGoodLoopClosureEdgeFromAToB config map a b del)
    as [[hg1 del1]|] eqn:H1; [|done].
  apply hasGoodLoopClosureEdgeFromAToB_Some_inv in H1 as (_ & Hhg1 & Hdel1).
  destruct hg1.
  - injection Hrun as <- <-.
    destruct (proj1 Hhg1 eq_refl) as (id0 & e0 & Hfwd & Hgood).
    split.
    + split; [|done]. intros _. exists id0, e0. split; [by left|done].
    + intros id. rewrite Hdel1. split.
      * intros [?|(e & ? & ?)]; [by left|]. right. exists e.
        split; [done|by left].
      * intros [?|(e & ? & [?|[_ Hno]])]; [by left| |].
        -- right. by exists e.
        -- destruct Hno. by exists id0, e0.
  - apply hasGoodLoopClosureEdgeFromAToB_Some_inv in Hrun
      as (_ & Hhg2 & Hdel2).
    assert (Hno : ¬ ∃ id' e', lc_edge_from_to map a b id' e' ∧
                              good_edge config e' = true).
    { intros ?%Hhg1. done. }
    split.
    + rewrite Hhg2. split.
      * intros (id & e & ? & ?). exists id, e. split; [by right|done].
      * intros (id & e & [?|?] & ?); [|by exists id, e].
        destruct Hno. by exists id, e.
    + intros id. rewrite Hdel2, Hdel1. split.
      * intros [[?|(e & ? & ?)]|(e & ? & ?)].
        -- by left.
        -- right. exists e. split; [done|by left].
        -- right. exists e. split; [done|by right].
      * intros [?|(e & ? & [?|[? _]])].
        -- by left; left.
        -- left; right. by exists e.
        -- right. by exists e.
Qed.

(** Whenever the loop of the quality pass returns: what it kept and the
    exact deletion set. *)
Lemma quality_loop_Some_inv cs : ∀ del kept del',
  quality_loop config map cs del = Some (kept, del') →
  kept `sublist_of` cs ∧
  Forall (λ c, isValid c = true) kept ∧
  (∀ c, c ∈ kept →
     recompute_all_constraints config = true ∨ ¬ has_good_prior config map c) ∧
  (∀ id, id ∈ del' ↔
     id ∈ del ∨
     ∃ c e, c ∈ cs ∧ isValid c = true ∧ inspected config map c id e ∧
            marked_for_deletion config e = true).
Proof.
  induction cs as [|c cs IH]; intros del kept del' Hrun.
  - injection Hrun as <- <-. split_and!; [done|done| |].
    + by intros c []%elem_of_nil.
    + intros id. split; [by left|].
      by intros [?|(c & e & []%elem_of_nil & _)].
  - cbn [quality_loop] in Hrun.
    destruct (isValid c) eqn:Hvalid; cbn [negb] in Hrun.
    + destruct (has_good_lc_edge_either config map _ _ del)
        as [[hg del1]|] eqn:He; [|done].
      apply has_good_lc_edge_either_Some_inv in He as (Hhg & Hdel1).
      assert (Hstep : ∀ del2 : gset N,
                (∀ id, id ∈ del2 ↔
                   id ∈ del1 ∨
                   ∃ c' e, c' ∈ cs ∧ isValid c' = true ∧
                           inspected config map c' id e ∧
                           marked_for_deletion config e = true) →
                ∀ id, id ∈ del2 ↔
                   id ∈ del ∨
                   ∃ c' e, c' ∈ c :: cs ∧ isValid c' = true ∧
                           inspected config map c' id e ∧
                           marked_for_deletion config e = true).
      { intros del2 H2 id. rewrite H2, Hdel1. split.
        - intros [[?|(e & ? & ?)]|(c' & e & ? & ?)].
          + by left.
          + right. exists c, e. split; [by left|done].
          + right. exists c', e. split; [by right|done].
        - intros [?|(c' & e & [->|?]%elem_of_cons & ? & ? & ?)].
          + by left; left.
          + left; right. by exists e.
          + right. by exists c', e. }
      destruct (hg && negb (recompute_all_constraints config)) eqn:Hdrop.
      * apply IH in Hrun as (Hsub & Hval & Hwhy & Hdel).
        split_and!; [by apply sublist_cons|done|done|by apply Hstep].
      * destruct (quality_loop config map cs del1)
          as [[kept0 del0]|] eqn:Hrec; [|done].
        injection Hrun as <- <-.
        apply IH in Hrec as (Hsub & Hval & Hwhy & Hdel).
        split_and!; [by apply sublist_skip|by constructor| |by apply Hstep].
        intros c' [->|?]%elem_of_cons; [|by apply Hwhy].
        apply andb_false_iff in Hdrop as [->|Hall%negb_false_iff];
          [|by left].
        right. intros ?%Hhg. done.
    + apply IH in Hrun as (Hsub & Hval & Hwhy & Hdel).
      split_and!; [by apply sublist_cons|done|done|].
      intros id. rewrite Hdel. split.
      * intros [?|(c' & e & ? & ?)]; [by left|].
        right. exists c', e. split; [by right|done].
      * intros [?|(c' & e & [->|?]%elem_of_cons & ? & ?)];
          [by left|congruence|].
        right. by exists c', e.
Qed.

(** The loop returns exactly when no lookup it performs fails. *)
Lemma quality_loop_is_Some cs : ∀ del,
  is_Some (quality_loop config map cs del) ↔
  ∀ c, c ∈ cs → isValid c = true → lookups_succeed config map c.
Proof.
  induction cs as [|c cs IH]; intros del.
  - split; [by intros _ c []%elem_of_nil|]. intros _. by eexists.
  - cbn [quality_loop]. destruct (isValid c) eqn:Hvalid; cbn [negb].
    + split.
      * intros Hsome.
        destruct (has_good_lc_edge_either config map _ _ del)
          as [[hg del1]|] eqn:He; [|by destruct Hsome].
        assert (Hc : lookups_succeed config map c).
        { apply (has_good_lc_edge_either_is_Some _ _ del).
          unfold vertex_A, vertex_B. by rewrite He. }
        assert (Hrest : is_Some (quality_loop config map cs del1)).
        { destruct (hg && _); [done|].
          destruct (quality_loop config map cs del1) as [[??]|];
            [by eexists|by destruct Hsome]. }
        intros c' [->|?]%elem_of_cons ?; [done|].
        by apply (proj1 (IH del1) Hrest).
      * intros Hall.
        assert (Hc : lookups_succeed config map c)
          by (apply Hall; [by left|done]).
        apply (has_good_lc_edge_either_is_Some _ _ del) in Hc
          as [[hg del1] He].
        unfold vertex_A, vertex_B in He. rewrite He.
        assert (Hrest : is_Some (quality_loop config map cs del1)).
        { apply IH. intros c' ??. apply Hall; [by right|done]. }
        destruct Hrest as [[kept0 del0] ->].
        destruct (hg && _); by eexists.
    + rewrite IH. split.
      * intros Hall c' [->|?]%elem_of_cons ?; [congruence|by apply Hall].
      * intros Hall c' ??. apply Hall; [by right|done].
Qed.

End quality_exact.

Section quality_pass_exact.
Context (config : SelectionConfig) (map : VIMap).

Lemma marked_for_deletion_flags e :
  marked_for_deletion config e = true →
  (recompute_all_constraints config
   || recompute_invalid_constraints config) = true.
Proof.
  unfold marked_for_deletion.
  destruct (recompute_all_constraints config),
    (recompute_invalid_constraints config), (good_edge config e); done.
Qed.

Lemma inspected_lookup c id e :
  inspected config map c id e → edges map !! id = Some e.
Proof. by intros [(? & _)|[(? & _) _]]. Qed.

(** Whenever the quality pass returns, it ran its loop to the end, left the
    vertices alone and took out of the edges exactly the collected ids, if a
    recompute flag is set. *)
Lemma filter_candidates_based_on_quality_Some_inv cs map' kept :
  filter_candidates_based_on_quality config map cs = Some (map', kept) →
  ∃ del,
    quality_loop config map cs ∅ = Some (kept, del) ∧
    vertices map' = vertices map ∧
    ∀ id, edges map' !! id =
          if decide (id ∈ del ∧
                     (recompute_all_constraints config
                      || recompute_invalid_constraints config) = true)
          then None else edges map !! id.
Proof.
  unfold filter_candidates_based_on_quality. intros Hrun.
  destruct (quality_loop config map cs ∅) as [[kept0 del]|] eqn:Hloop;
    [|done].
  exists del.
  pose proof (quality_loop_Some_inv config map cs _ _ _ Hloop)
    as (_ & _ & _ & Hdel).
  destruct (recompute_all_constraints config
            || recompute_invalid_constraints config) eqn:Hflags.
  - destruct (remove_edges_spec (elements del) map)
      as (map1 & Hre & Hv & He).
    { intros id [[]%not_elem_of_empty|(c & e & _ & _ & Hi & _)]
        %elem_of_elements%Hdel.
      exists e. by eapply inspected_lookup. }
    { apply NoDup_elements. }
    rewrite Hre in Hrun. injection Hrun as <- <-.
    split; [done|]. split; [done|]. intros id. rewrite He.
    destruct (decide (id ∈ elements del)) as [Hin|Hin];
      rewrite elem_of_elements in Hin.
    + by rewrite decide_True.
    + rewrite decide_False; [done|]. by intros [? _].
  - injection Hrun as <- <-. split; [done|]. split; [done|]. intros id.
    rewrite decide_False; [done|]. by intros [_ ?].
Qed.

Lemma filter_candidates_based_on_quality_is_Some cs :
  is_Some (filter_candidates_based_on_quality config map cs) ↔
  is_Some (quality_loop config map cs ∅).
Proof.
  unfold filter_candidates_based_on_quality. split.
  - destruct (quality_loop config map cs ∅) as [[??]|];
      [by eexists|by intros []].
  - intros [[kept del] Hloop]. rewrite Hloop.
    destruct (_ || _); [|by eexists].
    pose proof (quality_loop_Some_inv config map cs _ _ _ Hloop)
      as (_ & _ & _ & Hdel).
    destruct (remove_edges_spec (elements del) map) as (map1 & -> & _).
    { intros id [[]%not_elem_of_empty|(c & e & _ & _ & Hi & _)]
        %elem_of_elements%Hdel.
      exists e. by eapply inspected_lookup. }
    { apply NoDup_elements. }
    by eexists.
Qed.

(** What the loop keeps, the other way round. *)
Lemma quality_loop_keeps cs : ∀ del kept del',
  quality_loop config map cs del = Some (kept, del') →
  ∀ c, c ∈ cs → isValid c = true →
    recompute_all_constraints config = true ∨ ¬ has_good_prior config map c →
    c ∈ kept.
Proof.
  induction cs as [|c0 cs IH]; intros del kept del' Hrun c Hc Hvalid Hwhy.
  - by apply elem_of_nil in Hc.
  - cbn [quality_loop] in Hrun.
    destruct (isValid c0) eqn:Hvalid0; cbn [negb] in Hrun.
    + destruct (has_good_lc_edge_either config map _ _ del)
        as [[hg del1]|] eqn:He; [|done].
      apply has_good_lc_edge_either_Some_inv in He as (Hhg & _).
      destruct (hg && negb (recompute_all_constraints config)) eqn:Hdrop.
      * apply andb_true_iff in Hdrop as [-> Hall%negb_true_iff].
        apply elem_of_cons in Hc as [->|Hc]; [|by eapply IH].
        destruct Hwhy as [?|Hno]; [congruence|].
        destruct Hno. by apply Hhg.
      * destruct (quality_loop config map cs del1)
          as [[kept0 del0]|] eqn:Hrec; [|done].
        injection Hrun as <- <-.
        apply elem_of_cons in Hc as [->|Hc]; [by left|].
        right. by eapply IH.
    + apply elem_of_cons in Hc as [->|Hc]; [congruence|by eapply IH].
Qed.

(** Under [recompute_all_constraints] the loop keeps every valid candidate,
    in order. *)
Lemma quality_loop_recompute_all cs : ∀ del kept del',
  recompute_all_constraints config = true →
  quality_loop config map cs del = Some (kept, del') →
  kept = filter (λ c, isValid c = true) cs.
Proof.
  induction cs as [|c cs IH]; intros del kept del' Hall Hrun.
  - by injection Hrun as <- <-.
  - cbn [quality_loop] in Hrun. rewrite filter_cons.
    destruct (isValid c) eqn:Hvalid; cbn [negb] in Hrun.
    + destruct (has_good_lc_edge_either config map _ _ del)
        as [[hg del1]|]; [|done].
      rewrite Hall, andb_false_r in Hrun.
      destruct (quality_loop config map cs del1)
        as [[kept0 del0]|] eqn:Hrec; [|done].
      injection Hrun as <- <-. rewrite decide_True by done.
      f_equal. by eapply IH.
    + rewrite decide_False by done. by eapply IH.
Qed.

(** A loop run on candidates that are all valid and would all be kept
    returns them as they are. *)
Lemma quality_loop_keeps_all cs : ∀ del kept del',
  (∀ c, c ∈ cs →
     isValid c = true ∧
     (recompute_all_constraints config = true ∨
      ¬ has_good_prior config map c)) →
  quality_loop config map cs del = Some (kept, del') →
  kept = cs.
Proof.
  induction cs as [|c cs IH]; intros del kept del' Hall Hrun.
  - by injection Hrun as <- <-.
  - destruct (Hall c) as [Hvalid Hwhy]; [by left|].
    assert (Hall' : ∀ c', c' ∈ cs →
              isValid c' = true ∧
              (recompute_all_constraints config = true ∨
               ¬ has_good_prior config map c')).
    { intros c' ?. apply Hall. by right. }
    cbn [quality_loop] in Hrun. rewrite Hvalid in Hrun. cbn [negb] in Hrun.
    destruct (has_good_lc_edge_either config map _ _ del)
      as [[hg del1]|] eqn:He; [|done].
    apply has_good_lc_edge_either_Some_inv in He as (Hhg & _).
    destruct (hg && negb (recompute_all_constraints config)) eqn:Hdrop.
    + apply andb_true_iff in Hdrop as [-> Hfalse%negb_true_iff].
      destruct Hwhy as [?|Hno]; [congruence|].
      destruct Hno. by apply Hhg.
    + destruct (quality_loop config map cs del1)
        as [[kept0 del0]|] eqn:Hrec; [|done].
      injection Hrun as <- <-. f_equal. by eapply IH.
Qed.

End quality_pass_exact.

(** ** Properties of the inspector and of the quality pass *)

(** X1. One call of [hasGoodLoopClosureEdgeFromAToB] never takes an id out
    of the deletion set; it adds exactly the ids of the loop-closure edges
    from [A] to [B] that fail [switchVariable >= threshold] when
    [recompute_invalid_constraints] is set, and of all loop-closure edges
    from [A] to [B] when [recompute_all_constraints] is set. *)
Theorem hasGoodLoopClosureEdgeFromAToB_deletion_set config map a b del
    has_good del' :
  hasGoodLoopClosureEdgeFromAToB config map a b del = Some (has_good, del') →
  ∀ id, id ∈ del' ↔
    id ∈ del ∨
    ∃ e, edges map !! id = Some e ∧ edge_type e = kLoopClosure ∧
         from e = a ∧ to e = b ∧
         ((PrimFloat.leb (constraint_min_switch_variable_value config)
                         (getSwitchVariable e) = false ∧
           recompute_invalid_constraints config = true) ∨
          recompute_all_constraints config = true).
Proof.
  intros (_ & _ & Hdel)%hasGoodLoopClosureEdgeFromAToB_Some_inv id.
  rewrite Hdel. unfold lc_edge_from_to, marked_for_deletion, good_edge.
  split.
  - intros [?|(e & (? & ? & ? & ?) & Hm)]; [by left|]. right. exists e.
    split_and!; try done.
    apply orb_true_iff in Hm as [[?%negb_true_iff ?]%andb_true_iff|?];
      [by left|by right].
  - intros [?|(e & ? & ? & ? & ? & Hm)]; [by left|]. right. exists e.
    split; [done|]. apply orb_true_iff.
    destruct Hm as [[-> ->]|?]; [by left|by right].
Qed.

Lemma hasGoodLoopClosureEdgeFromAToB_deletion_set_witness :
  hasGoodLoopClosureEdgeFromAToB (example_config false true 3 "distance")
    loop_map 3 13 ∅ = Some (false, {[ 102%N ]}) ∧
  ∀ id, id ∈ ({[ 102%N ]} : gset N) ↔
    id ∈ (∅ : gset N) ∨
    ∃ e, edges loop_map !! id = Some e ∧ edge_type e = kLoopClosure ∧
         from e = 3%N ∧ to e = 13%N ∧
         ((PrimFloat.leb 0.5 (getSwitchVariable e) = false ∧
           recompute_invalid_constraints
             (example_config false true 3 "distance") = true) ∨
          recompute_all_constraints
             (example_config false true 3 "distance") = true).
Proof.
  assert (Hrun : hasGoodLoopClosureEdgeFromAToB
                   (example_config false true 3 "distance") loop_map 3 13 ∅
                 = Some (false, {[ 102%N ]}))
    by (vm_compute; reflexivity).
  split; [exact Hrun|].
  exact (hasGoodLoopClosureEdgeFromAToB_deletion_set
           (example_config false true 3 "distance") loop_map 3 13 ∅ false
           {[ 102%N ]} Hrun).
Defined.

(** X2. Whenever the quality pass returns, the collection it leaves is the
    input with some candidates taken out (same order, never longer), holds
    no invalid candidate, and the map has the same vertices and no edge it
    did not have before. *)
Theorem quality_pass_only_removes config map cs map' kept :
  filter_candidates_based_on_quality config map cs = Some (map', kept) →
  kept `sublist_of` cs ∧
  length kept ≤ length cs ∧
  Forall (λ c, isValid c = true) kept ∧
  vertices map' = vertices map ∧
  (∀ id e, edges map' !! id = Some e → edges map !! id = Some e).
Proof.
  intros (del & Hloop & Hv & He)%filter_candidates_based_on_quality_Some_inv.
  apply quality_loop_Some_inv in Hloop as (Hsub & Hval & _).
  split_and!; [done|by apply sublist_length|done|done|].
  intros id e. rewrite He. by destruct (decide _).
Qed.

Lemma quality_pass_only_removes_witness :
  ∃ map' kept,
    filter_candidates_based_on_quality (example_config true false 3 "random")
      loop_map (invalid_candidate 7 8 :: line_candidates) = Some (map', kept) ∧
    kept `sublist_of` invalid_candidate 7 8 :: line_candidates ∧
    length kept ≤ length (invalid_candidate 7 8 :: line_candidates) ∧
    Forall (λ c, isValid c = true) kept ∧
    vertices map' = vertices loop_map ∧
    (∀ id e, edges map' !! id = Some e → edges loop_map !! id = Some e).
Proof.
  destruct (filter_candidates_based_on_quality
              (example_config true false 3 "random") loop_map
              (invalid_candidate 7 8 :: line_candidates))
    as [[map' kept]|] eqn:Hrun.
  - exists map', kept. split; [done|].
    exact (quality_pass_only_removes _ _ _ _ _ Hrun).
  - vm_compute in Hrun. discriminate Hrun.
Defined.

(** The edges the quality pass removes, exactly. *)
Lemma quality_pass_removes_exactly_aux config map cs map' kept :
  filter_candidates_based_on_quality config map cs = Some (map', kept) →
  ∀ id e, edges map !! id = Some e →
    edges map' !! id = None ↔
      marked_for_deletion config e = true ∧
      ∃ c, c ∈ cs ∧ isValid c = true ∧ inspected config map c id e.
Proof.
  intros (del & Hloop & Hv & He)%filter_candidates_based_on_quality_Some_inv
    id e Hide.
  apply quality_loop_Some_inv in Hloop as (_ & _ & _ & Hdel).
  rewrite He, Hide. destruct (decide _) as [[Hin Hflags]|Hnot].
  - split; [|done]. intros _.
    apply Hdel in Hin as [[]%not_elem_of_empty|(c & e' & ? & ? & Hi & ?)].
    assert (e' = e) as ->.
    { apply inspected_lookup in Hi. congruence. }
    split; [done|]. by exists c.
  - split; [done|]. intros (Hm & c & ? & ? & ?).
    destruct Hnot. split; [|by eapply marked_for_deletion_flags].
    apply Hdel. right. by exists c, e.
Qed.

(** X3. The quality pass returns exactly when none of its lookups fails:
    every valid candidate has its A vertex in the map, and its B vertex too
    unless some loop-closure edge from A to B is good (then the second
    inspector call is skipped). Invalid candidates are erased before any
    lookup and never matter. *)
Theorem quality_pass_returns_iff config map cs :
  is_Some (filter_candidates_based_on_quality config map cs) ↔
  ∀ c, c ∈ cs → isValid c = true →
    is_Some (vertices map !! vertex_A c) ∧
    ((∃ id e, lc_edge_from_to map (vertex_A c) (vertex_B c) id e ∧
              PrimFloat.leb (constraint_min_switch_variable_value config)
                            (getSwitchVariable e) = true) ∨
     is_Some (vertices map !! vertex_B c)).
Proof.
  rewrite filter_candidates_based_on_quality_is_Some.
  apply quality_loop_is_Some.
Qed.

(** X4. Whenever the quality pass returns, an edge of the map is gone
    afterwards exactly if it was marked (it fails the quality test and
    [recompute_invalid_constraints] is set, or [recompute_all_constraints]
    is set) and was inspected for some valid candidate (A,B): it is a
    loop-closure edge from A to B, or one from B to A while no edge from A
    to B is good. Every other edge is still there, unchanged. *)
Theorem quality_pass_removes_exactly config map cs map' kept :
  filter_candidates_based_on_quality config map cs = Some (map', kept) →
  ∀ id e, edges map !! id = Some e →
    (edges map' !! id = None ↔
       marked_for_deletion config e = true ∧
       ∃ c, c ∈ cs ∧ isValid c = true ∧ inspected config map c id e) ∧
    (edges map' !! id ≠ None → edges map' !! id = Some e).
Proof.
  intros (del & Hloop & Hv & He)%filter_candidates_based_on_quality_Some_inv
    id e Hide.
  apply quality_loop_Some_inv in Hloop as (_ & _ & _ & Hdel).
  rewrite He, Hide. destruct (decide _) as [[Hin Hflags]|Hnot].
  - split; [|done]. split; [|done]. intros _.
    apply Hdel in Hin as [[]%not_elem_of_empty|(c & e' & ? & ? & Hi & ?)].
    assert (e' = e) as ->.
    { apply inspected_lookup in Hi. congruence. }
    split; [done|]. by exists c.
  - split; [|done]. split; [done|]. intros (Hm & c & ? & ? & ?).
    destruct Hnot. split; [|by eapply marked_for_deletion_flags].
    apply Hdel. right. by exists c, e.
Qed.

Lemma quality_pass_removes_exactly_witness :
  ∃ map' kept,
    filter_candidates_based_on_quality (example_config true false 3 "random")
      loop_map line_candidates = Some (map', kept) ∧
    ∀ id e, edges loop_map !! id = Some e →
      (edges map' !! id = None ↔
         marked_for_deletion (example_config true false 3 "random") e = true ∧
         ∃ c, c ∈ line_candidates ∧ isValid c = true ∧
              inspected (example_config true false 3 "random") loop_map
                c id e) ∧
      (edges map' !! id ≠ None → edges map' !! id = Some e).
Proof.
  destruct (filter_candidates_based_on_quality
              (example_config true false 3 "random") loop_map line_candidates)
    as [[map' kept]|] eqn:Hrun.
  - exists map', kept. split; [done|].
    exact (quality_pass_removes_exactly _ _ _ _ _ Hrun).
  - vm_compute in Hrun. discriminate Hrun.
Defined.

(** X5. Whenever the quality pass returns, a candidate is in the collection
    it leaves exactly if it was in the input, is valid, and either
    [recompute_all_constraints] is set or no loop-closure edge between its
    two vertices, in either direction, passes the quality test. *)
Theorem quality_pass_keeps_exactly config map cs map' kept :
  filter_candidates_based_on_quality config map cs = Some (map', kept) →
  ∀ c, c ∈ kept ↔
    c ∈ cs ∧ isValid c = true ∧
    (recompute_all_constraints config = true ∨
     ¬ ∃ id e, lc_edge_between map c id e ∧
               PrimFloat.leb (constraint_min_switch_variable_value config)
                             (getSwitchVariable e) = true).
Proof.
  intros (del & Hloop & _)%filter_candidates_based_on_quality_Some_inv c.
  pose proof (quality_loop_Some_inv config map cs _ _ _ Hloop)
    as (Hsub & Hval & Hwhy & _).
  split.
  - intros Hc. split_and!.
    + by eapply elem_of_sublist.
    + rewrite Forall_forall in Hval. by apply Hval.
    + by apply Hwhy.
  - intros (? & ? & ?). by eapply quality_loop_keeps.
Qed.

Lemma quality_pass_keeps_exactly_witness :
  ∃ map' kept,
    filter_candidates_based_on_quality (example_config false true 3 "random")
      loop_map line_candidates = Some (map', kept) ∧
    ∀ c, c ∈ kept ↔
      c ∈ line_candidates ∧ isValid c = true ∧
      (recompute_all_constraints (example_config false true 3 "random")
         = true ∨
       ¬ ∃ id e, lc_edge_between loop_map c id e ∧
                 PrimFloat.leb 0.5 (getSwitchVariable e) = true).
Proof.
  destruct (filter_candidates_based_on_quality
              (example_config false true 3 "random") loop_map line_candidates)
    as [[map' kept]|] eqn:Hrun.
  - exists map', kept. split; [done|].
    exact (quality_pass_keeps_exactly _ _ _ _ _ Hrun).
  - vm_compute in Hrun. discriminate Hrun.
Defined.

(** X6. With [recompute_all_constraints] set, whenever the quality pass
    returns it has kept every valid candidate, in order, good prior edge or
    not, and every loop-closure edge from A to B of a valid candidate (A,B)
    is gone from the map. *)
Theorem recompute_all_keeps_valid_removes_forward config map cs map' kept :
  recompute_all_constraints config = true →
  filter_candidates_based_on_quality config map cs = Some (map', kept) →
  kept = filter (λ c, isValid c = true) cs ∧
  ∀ c id e, c ∈ cs → isValid c = true →
    lc_edge_from_to map (vertex_A c) (vertex_B c) id e →
    edges map' !! id = None.
Proof.
  intros Hall Hrun. split.
  - apply filter_candidates_based_on_quality_Some_inv in Hrun
      as (del & Hloop & _).
    by eapply quality_loop_recompute_all.
  - intros c id e Hc Hvalid Hfwd.
    pose proof Hfwd as (Hide & _).
    apply (quality_pass_removes_exactly_aux config map cs map' kept Hrun
             id e Hide).
    split.
    + unfold marked_for_deletion. rewrite Hall. apply orb_true_r.
    + exists c. split_and!; [done|done|by left].
Qed.

Lemma recompute_all_keeps_valid_removes_forward_witness :
  ∃ map' kept,
    filter_candidates_based_on_quality (example_config true false 3 "random")
      loop_map (invalid_candidate 7 8 :: line_candidates)
      = Some (map', kept) ∧
    kept = filter (λ c, isValid c = true)
             (invalid_candidate 7 8 :: line_candidates) ∧
    ∀ c id e, c ∈ invalid_candidate 7 8 :: line_candidates →
      isValid c = true →
      lc_edge_from_to loop_map (vertex_A c) (vertex_B c) id e →
      edges map' !! id = None.
Proof.
  destruct (filter_candidates_based_on_quality
              (example_config true false 3 "random") loop_map
              (invalid_candidate 7 8 :: line_candidates))
    as [[map' kept]|] eqn:Hrun.
  - exists map', kept. split; [done|].
    exact (recompute_all_keeps_valid_removes_forward
             (example_config true false 3 "random") loop_map _ _ _
             eq_refl Hrun).
  - vm_compute in Hrun. discriminate Hrun.
Defined.

(** X7. Running the quality pass a second time, on the collection and the
    map the first run left, returns the same collection: the first run
    leaves nothing a second run would drop. (The map may still lose edges
    from B to A that the first run did not inspect.) *)
Theorem quality_pass_stable_on_candidates config map cs :
  candidates_in_map map cs →
  ∃ map' kept,
    filter_candidates_based_on_quality config map cs = Some (map', kept) ∧
    ∃ map'',
      filter_candidates_based_on_quality config map' kept
      = Some (map'', kept).
Proof.
  intros Hin.
  destruct (filter_candidates_based_on_quality_spec config map cs Hin)
    as (map' & kept & Hrun & _).
  exists map', kept. split; [done|].
  pose proof Hrun as (del & Hloop & Hv & He)
    %filter_candidates_based_on_quality_Some_inv.
  apply quality_loop_Some_inv in Hloop as (Hsub & Hval & Hwhy & _).
  rewrite Forall_forall in Hval.
  assert (Hsome : is_Some (filter_candidates_based_on_quality config map'
                             kept)).
  { apply filter_candidates_based_on_quality_is_Some, quality_loop_is_Some.
    intros c Hc Hvalid. unfold lookups_succeed. rewrite Hv.
    destruct (Hin c) as [Ha Hb]; [by eapply elem_of_sublist|done|].
    split; [done|by right]. }
  destruct Hsome as [[map'' kept'] Hrun'].
  exists map''. rewrite Hrun'. do 2 f_equal.
  apply filter_candidates_based_on_quality_Some_inv in Hrun'
    as (del' & Hloop' & _).
  eapply quality_loop_keeps_all; [|done].
  intros c Hc. split; [by apply Hval|].
  destruct (Hwhy c Hc) as [?|Hno]; [by left|right].
  intros (id & e & Hbetween & Hgood). apply Hno. exists id, e.
  split; [|done].
  assert (Hback : ∀ a b, lc_edge_from_to map' a b id e →
                         lc_edge_from_to map a b id e).
  { intros a b (Hl & ?). split; [|done]. rewrite He in Hl.
    by destruct (decide _). }
  destruct Hbetween as [?|?]; [left|right]; by apply Hback.
Qed.

Lemma quality_pass_stable_on_candidates_witness :
  ∃ map' kept,
    filter_candidates_based_on_quality (example_config true false 3 "random")
      loop_map line_candidates = Some (map', kept) ∧
    ∃ map'',
      filter_candidates_based_on_quality
        (example_config true false 3 "random") map' kept
      = Some (map'', kept).
Proof.
  apply (quality_pass_stable_on_candidates
           (example_config true false 3 "random") loop_map line_candidates).
  by apply line_candidates_in_map.
Defined.

(** ** Properties of the strategy pass *)
Section distance_more.
Context (cap : nat) (d : float) (map : VIMap).

Lemma forallb_false_elem_of {A} (f : A → bool) (l : list A) :
  forallb f l = false → ∃ x, x ∈ l ∧ f x = false.
Proof.
  induction l as [|x l IH]; [done|]. cbn.
  intros [Hx|Hl]%andb_false_iff.
  - exists x. split; [by left|done].
  - destruct (IH Hl) as (y & ? & ?). exists y. split; [by right|done].
Qed.

(** A candidate the loop has taken out of the collection is not farther than
    [d] from one of the accepted positions. *)
Lemma distance_loop_dropped cs : ∀ positions out final,
  distance_loop cap d map positions cs = Some (out, final) →
  ∀ c, c ∈ cs →
    c ∈ out ∨
    ∃ p q, position_of map c = Some p ∧ q ∈ final ∧
           farther_than d p q = false.
Proof.
  induction cs as [|c0 cs IH]; intros positions out final Hrun c Hc.
  - by apply elem_of_nil in Hc.
  - pose proof (distance_loop_inv cap d map _ _ _ _ Hrun)
      as (_ & _ & ps & _ & Hfinal & _).
    cbn [distance_loop] in Hrun.
    destruct (getVertex map (closest_vertex_id (candidate_A c0)))
      as [v|] eqn:Hv; [|done].
    destruct (forallb (farther_than d (get_p_M_I v)) positions) eqn:Hfar.
    + destruct (cap <=? length (positions ++ [get_p_M_I v])).
      * injection Hrun as <- <-. by left.
      * destruct (distance_loop cap d map (positions ++ [get_p_M_I v]) cs)
          as [[rest' fin]|] eqn:Hrec; [|done].
        injection Hrun as <- <-.
        apply elem_of_cons in Hc as [->|Hc]; [left; by left|].
        destruct (IH _ _ _ Hrec c Hc) as [?|?]; [left; by right|by right].
    + apply elem_of_cons in Hc as [->|Hc]; [|by eapply IH].
      right. apply forallb_false_elem_of in Hfar as (q & Hq & Hnot).
      exists (get_p_M_I v), q. split_and!.
      * unfold position_of, vertex_A. by rewrite Hv.
      * rewrite Hfinal. apply elem_of_app. by left.
      * done.
Qed.

(** Run again on what it returned, the loop returns the same. *)
Lemma distance_loop_idempotent cs : ∀ positions out final,
  distance_loop cap d map positions cs = Some (out, final) →
  distance_loop cap d map positions out = Some (out, final).
Proof.
  induction cs as [|c cs IH]; intros positions out final Hrun.
  - by injection Hrun as <- <-.
  - cbn [distance_loop] in Hrun.
    destruct (getVertex map (closest_vertex_id (candidate_A c)))
      as [v|] eqn:Hv; [|done].
    destruct (forallb (farther_than d (get_p_M_I v)) positions) eqn:Hfar;
      [|by apply IH].
    destruct (cap <=? length (positions ++ [get_p_M_I v])) eqn:Hcap.
    + injection Hrun as <- <-. cbn [distance_loop].
      by rewrite Hv, Hfar, Hcap.
    + destruct (distance_loop cap d map (positions ++ [get_p_M_I v]) cs)
        as [[rest' fin]|] eqn:Hrec; [|done].
      injection Hrun as <- <-. cbn [distance_loop].
      rewrite Hv, Hfar, Hcap. by rewrite (IH _ _ _ Hrec).
Qed.

End distance_more.

Lemma strategy_distance_inv shuffle config map cs out log :
  (0 ≤ max_number_of_candidates config)%Z →
  filter_strategy config = "distance" →
  filter_candidates_based_on_strategy shuffle config map cs
    = Some (out, log) →
  log = [] ∧
  ∃ final,
    distance_loop (Z.to_nat (max_number_of_candidates config))
      (min_distance_to_next_candidate config) map [] cs = Some (out, final).
Proof.
  intros Hcap Hs Hrun. rewrite strategy_distance in Hrun by done.
  destruct (distance_loop _ _ _ _ _) as [[out' final]|]; [|done].
  injection Hrun as <- <-. split; [done|]. by exists final.
Qed.

(** X8. Under the distance strategy a candidate is taken out of the
    collection only for being too close: every candidate of the input that
    is missing from the result is not farther than
    [min_distance_to_next_candidate] from some candidate of the result. *)
Theorem distance_strategy_drops_only_close shuffle config map cs out log :
  filter_strategy config = "distance" →
  (0 ≤ max_number_of_candidates config)%Z →
  filter_candidates_based_on_strategy shuffle config map cs
    = Some (out, log) →
  ∀ c, c ∈ cs →
    c ∈ out ∨
    ∃ c' p p', c' ∈ out ∧ position_of map c = Some p ∧
               position_of map c' = Some p' ∧
               farther_than (min_distance_to_next_candidate config) p p'
               = false.
Proof.
  intros Hs Hcap Hrun c Hc.
  apply strategy_distance_inv in Hrun as (_ & final & Hloop); [|done..].
  destruct (distance_loop_dropped _ _ _ _ _ _ _ Hloop c Hc)
    as [?|(p & q & Hp & Hq & Hclose)]; [by left|right].
  apply distance_loop_inv in Hloop
    as (acc & unex & ps & -> & -> & HF & _).
  cbn in Hq. apply list_elem_of_lookup in Hq as [i Hi].
  destruct (Forall2_lookup_r _ _ _ _ _ HF Hi) as (c' & Hc' & Hpos).
  exists c', p, q. split_and!; try done.
  apply elem_of_app. left. by eapply list_elem_of_lookup_2.
Qed.

Lemma distance_strategy_drops_only_close_witness :
  filter_candidates_based_on_strategy reversing_shuffle
    (example_config false false 3 "distance") line_map line_candidates
  = Some ([candidate 1 11; candidate 3 13; candidate 5 15], []) ∧
  ∀ c, c ∈ line_candidates →
    c ∈ [candidate 1 11; candidate 3 13; candidate 5 15] ∨
    ∃ c' p p', c' ∈ [candidate 1 11; candidate 3 13; candidate 5 15] ∧
               position_of line_map c = Some p ∧
               position_of line_map c' = Some p' ∧
               farther_than
                 (min_distance_to_next_candidate
                    (example_config false false 3 "distance")) p p'
               = false.
Proof.
  assert (Hrun : filter_candidates_based_on_strategy reversing_shuffle
                   (example_config false false 3 "distance") line_map
                   line_candidates
                 = Some ([candidate 1 11; candidate 3 13; candidate 5 15],
                         []))
    by (vm_compute; reflexivity).
  split; [exact Hrun|].
  apply (distance_strategy_drops_only_close reversing_shuffle
           (example_config false false 3 "distance") line_map
           line_candidates _ []).
  - reflexivity.
  - vm_compute. discriminate.
  - exact Hrun.
Defined.

(** X9. Whenever the distance strategy returns, the result is the input with
    some candidates taken out, in the same order, and the first candidate of
    the input is always the first of the result: it is tested against an
    empty list of accepted positions. *)
Theorem distance_strategy_keeps_first shuffle config map c rest out log :
  filter_strategy config = "distance" →
  (0 ≤ max_number_of_candidates config)%Z →
  filter_candidates_based_on_strategy shuffle config map (c :: rest)
    = Some (out, log) →
  ∃ out', out = c :: out' ∧ out' `sublist_of` rest.
Proof.
  intros Hs Hcap Hrun.
  apply strategy_distance_inv in Hrun as (_ & final & Hloop); [|done..].
  cbn [distance_loop forallb] in Hloop.
  destruct (getVertex map (closest_vertex_id (candidate_A c)))
    as [v|]; [|done].
  destruct (_ <=? _).
  - injection Hloop as <- _. by exists rest.
  - destruct (distance_loop _ _ map ([] ++ [get_p_M_I v]) rest)
      as [[rest' fin]|] eqn:Hrec; [|done].
    injection Hloop as <- _. exists rest'. split; [done|].
    by apply distance_loop_inv in Hrec as (? & ? & ? & -> & _ & _ & _ & ? & _).
Qed.

Lemma distance_strategy_keeps_first_witness :
  ∃ out', [candidate 1 11; candidate 3 13; candidate 5 15]
          = candidate 1 11 :: out' ∧
          out' `sublist_of`
            [candidate 2 12; candidate 3 13; candidate 4 14; candidate 5 15].
Proof.
  apply (distance_strategy_keeps_first reversing_shuffle
           (example_config false false 3 "distance") line_map
           (candidate 1 11)
           [candidate 2 12; candidate 3 13; candidate 4 14; candidate 5 15]
           _ []).
  - reflexivity.
  - vm_compute. discriminate.
  - vm_compute. reflexivity.
Defined.

Lemma negative_cap_off shuffle config map cs :
  (max_number_of_candidates config < 0)%Z →
  filter_candidates_based_on_strategy shuffle config map cs = Some (cs, []).
Proof.
  intros Hneg. unfold filter_candidates_based_on_strategy.
  by rewrite bool_decide_eq_true_2.
Qed.

(** X10. The strategy pass is idempotent: run again on the collection it
    returned, with the same configuration and map and any outcome of the
    shuffle, it returns that collection unchanged (and logs the same). For
    the random strategy this needs the first shuffle to be a permutation. *)
Theorem strategy_pass_idempotent shuffle shuffle' config map cs out log :
  shuffle_permutes shuffle →
  filter_candidates_based_on_strategy shuffle config map cs
    = Some (out, log) →
  filter_candidates_based_on_strategy shuffle' config map out
    = Some (out, log).
Proof.
  intros Hperm Hrun.
  destruct (decide (max_number_of_candidates config < 0)%Z) as [Hneg|Hcap].
  { rewrite negative_cap_off in Hrun by done. injection Hrun as <- <-.
    by apply negative_cap_off. }
  apply Z.nlt_ge in Hcap.
  destruct (decide (filter_strategy config = "random")) as [Hr|Hr].
  { rewrite strategy_random in Hrun by done. injection Hrun as <- <-.
    rewrite strategy_random by done. do 2 f_equal.
    apply filter_candidates_randomly_id.
    rewrite filter_candidates_randomly_length by done. lia. }
  destruct (decide (filter_strategy config = "distance")) as [Hd|Hd].
  { apply strategy_distance_inv in Hrun as (-> & final & Hloop); [|done..].
    rewrite strategy_distance by done.
    by rewrite (distance_loop_idempotent _ _ _ _ _ _ _ Hloop). }
  unfold filter_candidates_based_on_strategy in *.
  rewrite bool_decide_eq_false_2 in * by lia.
  rewrite !bool_decide_eq_false_2 in * by done.
  by injection Hrun as <- <-.
Qed.

Lemma strategy_pass_idempotent_witness :
  filter_candidates_based_on_strategy (λ v, v)
    (example_config false false 2 "random") line_map
    [candidate 1 11; candidate 2 12]
  = Some ([candidate 1 11; candidate 2 12], []).
Proof.
  apply (strategy_pass_idempotent reversing_shuffle (λ v, v)
           (example_config false false 2 "random") line_map line_candidates).
  - exact reversing_shuffle_permutes.
  - vm_compute. reflexivity.
Defined.

Section random_more.
Context (shuffle : Shuffle) (k : nat) (cs : list AlignmentCandidatePair).

Lemma elem_of_with_iterators i c :
  (i, c) ∈ with_iterators cs ↔ cs !! i = Some c.
Proof.
  unfold with_iterators. rewrite list_elem_of_lookup. split.
  - intros [j Hj]. apply lookup_zip_with_Some in Hj
      as (x & y & [= -> ->] & Hx & Hy).
    apply lookup_seq in Hx as [-> _]. done.
  - intros Hi. exists i. apply lookup_zip_with_Some. exists i, c.
    split_and!; [done| |done]. apply lookup_seq.
    split; [done|]. by eapply lookup_lt_Some.
Qed.

(** X11. Under the random strategy the survivors are the candidates whose
    iterators stand behind the first [size - min(size, cap)] entries of the
    shuffled vector: the erased ones are those at the front of the shuffled
    order. *)
Theorem random_strategy_survivors c :
  shuffle_permutes shuffle →
  c ∈ filter_candidates_randomly shuffle k cs ↔
  ∃ i, cs !! i = Some c ∧
       i ∈ drop (length cs - Nat.min (length cs) k)
                (shuffle (seq 0 (length cs))).
Proof.
  intros Hperm. unfold filter_candidates_randomly. rewrite foldl_erase.
  set (n := length cs). set (v := shuffle (seq 0 n)).
  set (m := n - Nat.min n k).
  assert (Hv : v ≡ₚ seq 0 n) by apply Hperm.
  assert (Hnd : NoDup (take m v ++ drop m v)).
  { rewrite take_drop, Hv. apply NoDup_seq. }
  apply NoDup_app in Hnd as (_ & Hdisj & _).
  assert (Hsplit : ∀ i, i < n → i ∉ take m v ↔ i ∈ drop m v).
  { intros i Hi. split.
    - intros Hnot.
      assert (Hin : i ∈ take m v ++ drop m v).
      { rewrite take_drop, Hv. apply elem_of_seq. lia. }
      apply elem_of_app in Hin as [?|?]; done.
    - intros Hin Hin'. by eapply Hdisj. }
  rewrite list_elem_of_fmap. split.
  - intros ([i c'] & -> & [Hnot Hic]%list_elem_of_filter).
    apply elem_of_with_iterators in Hic. exists i. split; [done|].
    apply Hsplit; [|done]. by eapply lookup_lt_Some.
  - intros (i & Hic & Hin). exists (i, c). split; [done|].
    apply list_elem_of_filter. split.
    + apply Hsplit; [|done]. by eapply lookup_lt_Some.
    + by apply elem_of_with_iterators.
Qed.

End random_more.

Lemma random_strategy_survivors_witness :
  candidate 2 12
    ∈ filter_candidates_randomly reversing_shuffle 2 line_candidates ↔
  ∃ i, line_candidates !! i = Some (candidate 2 12) ∧
       i ∈ drop (length line_candidates
                 - Nat.min (length line_candidates) 2)
                (reversing_shuffle (seq 0 (length line_candidates))).
Proof.
  apply (random_strategy_survivors reversing_shuffle 2 line_candidates
           (candidate 2 12)).
  exact reversing_shuffle_permutes.
Defined.

(** ** Properties of the whole selection *)

(** Whatever the strategy, the pass only takes candidates out. *)
Lemma strategy_pass_sublist shuffle config map cs out log :
  filter_candidates_based_on_strategy shuffle config map cs
    = Some (out, log) →
  out `sublist_of` cs.
Proof.
  intros Hrun.
  destruct (decide (max_number_of_candidates config < 0)%Z) as [Hneg|Hcap].
  { rewrite negative_cap_off in Hrun by done. by injection Hrun as <- _. }
  apply Z.nlt_ge in Hcap.
  destruct (decide (filter_strategy config = "random")) as [Hr|Hr].
  { rewrite strategy_random in Hrun by done. injection Hrun as <- _.
    apply filter_candidates_randomly_sublist. }
  destruct (decide (filter_strategy config = "distance")) as [Hd|Hd].
  { apply strategy_distance_inv in Hrun as (_ & final & Hloop); [|done..].
    by apply distance_loop_inv in Hloop
      as (? & ? & ? & -> & _ & _ & _ & ? & _). }
  unfold filter_candidates_based_on_strategy in Hrun.
  rewrite bool_decide_eq_false_2 in Hrun by lia.
  rewrite !bool_decide_eq_false_2 in Hrun by done.
  by injection Hrun as <- _.
Qed.

(** X12. Whenever [selectAlignmentCandidatePairs] returns, it returns
    [true]; the selected candidates are candidates of the input, in their
    original order, and all valid; the map has the same vertices and no edge
    it did not have before. This holds for every strategy, cap and shuffle
    outcome. *)
Theorem selection_only_removes shuffle config map cs r :
  selectAlignmentCandidatePairs shuffle config map cs = Some r →
  returned r = true ∧
  selected_pairs r `sublist_of` cs ∧
  Forall (λ c, isValid c = true) (selected_pairs r) ∧
  vertices (selected_map r) = vertices map ∧
  (∀ id e, edges (selected_map r) !! id = Some e → edges map !! id = Some e).
Proof.
  unfold selectAlignmentCandidatePairs. intros Hrun.
  destruct (filter_candidates_based_on_quality config map cs)
    as [[map' kept]|] eqn:Hq; [|done].
  destruct (filter_candidates_based_on_strategy shuffle config map' kept)
    as [[out log]|] eqn:Hs; [|done].
  injection Hrun as <-. cbn.
  apply filter_candidates_based_on_quality_Some_inv in Hq
    as (del & Hloop & Hv & He).
  apply quality_loop_Some_inv in Hloop as (Hsub & Hval & _).
  apply strategy_pass_sublist in Hs.
  split_and!; [done| |  |done|].
  - by etrans.
  - rewrite Forall_forall in *. intros c Hc. apply Hval.
    by eapply elem_of_sublist.
  - intros id e. rewrite He. by destruct (decide _).
Qed.

Lemma selection_only_removes_witness :
  ∃ r,
    selectAlignmentCandidatePairs reversing_shuffle
      (example_config true false 2 "random") loop_map
      (invalid_candidate 7 8 :: line_candidates) = Some r ∧
    returned r = true ∧
    selected_pairs r `sublist_of` invalid_candidate 7 8 :: line_candidates ∧
    Forall (λ c, isValid c = true) (selected_pairs r) ∧
    vertices (selected_map r) = vertices loop_map ∧
    (∀ id e, edges (selected_map r) !! id = Some e →
             edges loop_map !! id = Some e).
Proof.
  destruct (selectAlignmentCandidatePairs reversing_shuffle
              (example_config true false 2 "random") loop_map
              (invalid_candidate 7 8 :: line_candidates)) as [r|] eqn:Hrun.
  - exists r. split; [done|].
    exact (selection_only_removes _ _ _ _ _ Hrun).
  - vm_compute in Hrun. discriminate Hrun.
Defined.

(** X13. [selectAlignmentCandidatePairs] hits no [CHECK] and returns [true]
    whenever the map holds both vertices of every valid candidate, for every
    strategy, cap and shuffle outcome. *)
Theorem selection_returns shuffle config map cs :
  candidates_in_map map cs →
  ∃ r, selectAlignmentCandidatePairs shuffle config map cs = Some r ∧
       returned r = true.
Proof.
  intros Hin.
  destruct (filter_candidates_based_on_quality_spec config map cs Hin)
    as (map' & kept & Hq & Hsub & Hkept & Hv & _).
  assert (Hs : is_Some (filter_candidates_based_on_strategy shuffle config
                          map' kept)).
  { destruct (decide (max_number_of_candidates config < 0)%Z) as [Hneg|Hcap].
    { rewrite negative_cap_off by done. by eexists. }
    apply Z.nlt_ge in Hcap.
    destruct (decide (filter_strategy config = "random")) as [Hr|Hr].
    { rewrite strategy_random by done. by eexists. }
    destruct (decide (filter_strategy config = "distance")) as [Hd|Hd].
    { rewrite strategy_distance by done.
      destruct (distance_loop_returns
                  (Z.to_nat (max_number_of_candidates config))
                  (min_distance_to_next_candidate config) map' kept [])
        as [[out final] ->]; [|by eexists].
      intros c (Hc & Hvalid & _)%Hkept. rewrite Hv.
      by destruct (Hin c Hc Hvalid). }
    unfold filter_candidates_based_on_strategy.
    rewrite bool_decide_eq_false_2 by lia.
    rewrite !bool_decide_eq_false_2 by done. by eexists. }
  destruct Hs as [[out log] Hs].
  unfold selectAlignmentCandidatePairs. rewrite Hq, Hs. by eexists.
Qed.

Lemma selection_returns_witness :
  ∃ r, selectAlignmentCandidatePairs reversing_shuffle
         (example_config false true 2 "distance") loop_map line_candidates
       = Some r ∧
       returned r = true.
Proof.
  apply (selection_returns reversing_shuffle
           (example_config false true 2 "distance") loop_map line_candidates).
  by apply line_candidates_in_map.
Defined.

(** X14. On a map without any loop-closure edge the quality pass removes
    the invalid candidates and nothing else, and returns the map as it is,
    whatever the recompute flags and the threshold. *)
Theorem quality_pass_without_loop_closures config map cs :
  (∀ id e, edges map !! id = Some e → edge_type e ≠ kLoopClosure) →
  candidates_in_map map cs →
  filter_candidates_based_on_quality config map cs
  = Some (map, filter (λ c, isValid c = true) cs).
Proof.
  intros Hno Hin. unfold filter_candidates_based_on_quality.
  rewrite quality_loop_no_lc by done.
  rewrite elements_empty. cbn [remove_edges].
  by destruct (recompute_all_constraints config
               || recompute_invalid_constraints config).
Qed.

Lemma quality_pass_without_loop_closures_witness :
  filter_candidates_based_on_quality (example_config true true 3 "distance")
    line_map line_candidates
  = Some (line_map, filter (λ c, isValid c = true) line_candidates).
Proof.
  apply (quality_pass_without_loop_closures
           (example_config true true 3 "distance") line_map line_candidates).
  - intros id e He. vm_compute in He. discriminate He.
  - by apply line_candidates_in_map.
Defined.
